(** * Greedy non-maximum suppression of YOLOv4-Pytorch ([utilities/nms.py])

    A shallow embedding of [run_nms_inplace], [greedy_nms_inplace] and
    [bbox_iou], and the properties of the suppression pass.

    Numbers.  The tensors hold floats; they are modelled as rationals [Q],
    compared with [==], [<] and [<=] of [QArith], so rounding is not part of
    the model.  Division is the one operation of the module that leaves the
    finite numbers (x/0 is inf, 0/0 is nan); its result is an [fval].

    Tensors.  [preds] is a rank-2 tensor: a column count and a list of rows.
    A view ([preds[..., a:b]], [class_probs[i+1:]], [expand_as]) is modelled
    by what it reads and by where a write through it lands. *)

From Stdlib Require Import String.
From Stdlib Require Import List Bool Arith Lia QArith Qminmax Lqa.
Import ListNotations.

Open Scope Q_scope.

(** ** Numbers *)

Definition Qltb (a b : Q) : bool :=
  match a ?= b with Lt => true | _ => false end.

(** The value of a float division. *)
Inductive fval : Type :=
| Fin (q : Q)
| PosInf
| NegInf
| NaN.

(** [x / y] on floats: finite when [y] is not zero, else inf, -inf or nan. *)
Definition fdiv (x y : Q) : fval :=
  if Qeq_bool y 0 then
    if Qeq_bool x 0 then NaN
    else if Qltb 0 x then PosInf else NegInf
  else Fin (x / y).

(** [v > t] for a division result [v] and a finite [t]; nan compares false. *)
Definition fgt (v : fval) (t : Q) : bool :=
  match v with
  | Fin q => Qltb t q
  | PosInf => true
  | NegInf => false
  | NaN => false
  end.

(** [v <= t]; nan compares false here too. *)
Definition fle (v : fval) (t : Q) : bool :=
  match v with
  | Fin q => Qle_bool q t
  | PosInf => false
  | NegInf => true
  | NaN => false
  end.

(** [u == v] on division results; nan is equal to nothing. *)
Definition feq (u v : fval) : Prop :=
  match u, v with
  | Fin p, Fin q => p == q
  | PosInf, PosInf => True
  | NegInf, NegInf => True
  | _, _ => False
  end.

(** [torch.clamp(x, min=m)]. *)
Definition clamp_min (x m : Q) : Q := if Qltb x m then m else x.

(** ** Constants of [utilities/constants.py] *)

(** Modelled from the spec: [utilities/constants.py] is not among the
    sources.  A row of the prediction buffer is [(tx, ty, tw, th)], one more
    field, then the class scores (shape [N_boxes, 4 + 1 + C_classes]). *)
Definition YOLO_TX : nat := 0.
Definition YOLO_TY : nat := 1.
Definition YOLO_TW : nat := 2.
Definition YOLO_TH : nat := 3.
Definition YOLO_CLASS_START : nat := 5.

(** Modelled from the spec: [utilities/constants.py] is not among the
    sources.  A corner-form box is [(x1, y1, x2, y2)]. *)
Definition BBOX_X1 : nat := 0.
Definition BBOX_Y1 : nat := 1.
Definition BBOX_X2 : nat := 2.
Definition BBOX_Y2 : nat := 3.

(** ** Tensor operations *)

(** [row[k]] for an index inside the row. *)
Definition col (k : nat) (row : list Q) : Q := nth k row 0.

(** [row[k] = v] for an index inside the row. *)
Fixpoint set_col (k : nat) (v : Q) (row : list Q) : list Q :=
  match row, k with
  | [], _ => []
  | _ :: r, O => v :: r
  | x :: r, S k' => x :: set_col k' v r
  end.

(** [row[a:b]]. *)
Definition slice {A : Type} (a b : nat) (row : list A) : list A :=
  firstn (b - a) (skipn a row).

(** Elementwise operation on two tensors of one shape. *)
Fixpoint map2 {A B C : Type} (f : A -> B -> C) (xs : list A) (ys : list B)
  : list C :=
  match xs, ys with
  | x :: xs', y :: ys' => f x y :: map2 f xs' ys'
  | _, _ => []
  end.

(** [x.expand_as(other)]: [x] repeated along a new first dimension. *)
Definition expand_as {A B : Type} (x : A) (other : list B) : list A :=
  repeat x (length other).

(** [t[mask]] for a boolean mask over the first dimension: a copy. *)
Fixpoint masked_select {A : Type} (mask : list bool) (t : list A) : list A :=
  match mask, t with
  | m :: mask', x :: t' =>
      if m then x :: masked_select mask' t' else masked_select mask' t'
  | _, _ => []
  end.

(** [t[mask] = src] for a boolean mask over the first dimension: the rows of
    [src] are stored, in order, at the rows of [t] the mask selects. *)
Fixpoint masked_assign {A : Type} (mask : list bool) (src : list A)
  (t : list A) : list A :=
  match mask, t with
  | m :: mask', x :: t' =>
      if m then
        match src with
        | s :: src' => s :: masked_assign mask' src' t'
        | [] => x :: masked_assign mask' [] t'
        end
      else x :: masked_assign mask' src t'
  | _, _ => t
  end.

(** [row[mask] = 0] for an elementwise boolean mask over one row. *)
Fixpoint masked_zero (mask : list bool) (row : list Q) : list Q :=
  match mask, row with
  | m :: mask', x :: row' => (if m then 0 else x) :: masked_zero mask' row'
  | _, _ => row
  end.

(** [t[mask] = 0] for an elementwise boolean mask over a rank-2 tensor. *)
Fixpoint masked_zero2 (mask : list (list bool)) (t : list (list Q))
  : list (list Q) :=
  match mask, t with
  | m :: mask', r :: t' => masked_zero m r :: masked_zero2 mask' t'
  | _, _ => t
  end.

(** [torch.zeros(t.size(), dtype=bool)]. *)
Definition zeros_like (t : list (list Q)) : list (list bool) :=
  map (map (fun _ => false)) t.

(** ** [bbox_iou] *)

(** [(box[X2] - box[X1]) * (box[Y2] - box[Y1])]. *)
Definition bbox_area (box : list Q) : Q :=
  (col BBOX_X2 box - col BBOX_X1 box) * (col BBOX_Y2 box - col BBOX_Y1 box).

(** Clamped width and height of the intersection rectangle. *)
Definition inter_w (a b : list Q) : Q :=
  let xA := Qmax (col BBOX_X1 a) (col BBOX_X1 b) in
  let xB := Qmin (col BBOX_X2 a) (col BBOX_X2 b) in
  clamp_min (xB - xA) 0.

Definition inter_h (a b : list Q) : Q :=
  let yA := Qmax (col BBOX_Y1 a) (col BBOX_Y1 b) in
  let yB := Qmin (col BBOX_Y2 a) (col BBOX_Y2 b) in
  clamp_min (yB - yA) 0.

Definition interArea (a b : list Q) : Q := inter_w a b * inter_h a b.

(** The denominator of the quotient. *)
Definition unionArea (a b : list Q) : Q :=
  bbox_area a + bbox_area b - interArea a b.

(** One element of [bbox_iou]: the IOU of box [a] and box [b]. *)
Definition bbox_iou1 (a b : list Q) : fval :=
  fdiv (interArea a b) (unionArea a b).

(** [bbox_iou(bboxes_a, bboxes_b)]: elementwise over two batches of boxes. *)
Definition bbox_iou (bboxes_a bboxes_b : list (list Q)) : list fval :=
  map2 bbox_iou1 bboxes_a bboxes_b.

(** ** [greedy_nms_inplace] *)

(** A rank-2 float tensor of shape [[length rows, ncols]]. *)
Record tensor : Type := mkTensor { ncols : nat; rows : list (list Q) }.

(** Every row has [ncols] entries. *)
Definition rectangular (t : tensor) : bool :=
  forallb (fun r => Nat.eqb (length r) (ncols t)) (rows t).

(** How a call ends. *)
Inductive outcome : Type :=
| Returned
| IndexError.

(** Lines 42-51: the corner-form box of one row of [bbox_attrs]. *)
Definition corners (attrs : list Q) : list Q :=
  let zeros := map (fun _ => 0) attrs in
  let half_w := col YOLO_TW attrs / 2 in
  let half_h := col YOLO_TH attrs / 2 in
  set_col BBOX_Y2 (col YOLO_TY attrs + half_h)
    (set_col BBOX_X2 (col YOLO_TX attrs + half_w)
      (set_col BBOX_Y1 (col YOLO_TY attrs - half_h)
        (set_col BBOX_X1 (col YOLO_TX attrs - half_w) zeros))).

(** Lines 55-59: [thresh_mask] of iteration [i], one flag per later box. *)
Definition thresh_mask (bboxes : list (list Q)) (nms_thresh : Q) (i : nat)
  : list bool :=
  let bbox := nth i bboxes [] in
  let bboxes_b := skipn (S i) bboxes in
  let bboxes_a := expand_as bbox bboxes_b in
  let iou := bbox_iou bboxes_a bboxes_b in
  map (fun v => fgt v nms_thresh) iou.

(** Lines 61-65: [class_zero_a] of iteration [i], one row per later box that
    the mask selects.  [class_a] is [class_probs[i]] as it is when the
    iteration starts, repeated. *)
Definition class_zero_a (mask : list bool) (class_probs : list (list Q))
  (i : nat) : list (list bool) :=
  let class_b := skipn (S i) class_probs in
  let class_b_thresh := masked_select mask class_b in
  let class_a := expand_as (nth i class_probs []) class_b_thresh in
  map2 (map2 Qltb) class_a class_b_thresh.

(** Lines 66-70: [zero_mask_b] of iteration [i], one row per later box. *)
Definition zero_mask_b (mask : list bool) (class_probs : list (list Q))
  (i : nat) : list (list bool) :=
  let class_b := skipn (S i) class_probs in
  let class_zero_b := map (map negb) (class_zero_a mask class_probs i) in
  masked_assign mask class_zero_b (zeros_like class_b).

(** Line 73, [class_a[class_zero_a] = 0]: every row of the expanded view
    [class_a] is the storage of [class_probs[i]], so each row of the mask
    zeroes entries of that one row. *)
Definition zero_expanded (mask : list (list bool)) (row : list Q) : list Q :=
  fold_left (fun r m => masked_zero m r) mask row.

(** The body of the loop (lines 55-74) at index [i], on the class scores. *)
Definition nms_iter (bboxes : list (list Q)) (nms_thresh : Q)
  (class_probs : list (list Q)) (i : nat) : list (list Q) :=
  let mask := thresh_mask bboxes nms_thresh i in
  let class_b := skipn (S i) class_probs in
  let row_i := zero_expanded (class_zero_a mask class_probs i)
                 (nth i class_probs []) in
  let class_b' := masked_zero2 (zero_mask_b mask class_probs i) class_b in
  firstn i class_probs ++ row_i :: class_b'.

(** The iterations [k, ..., k+n-1] of the loop, in order. *)
Definition nms_range (bboxes : list (list Q)) (nms_thresh : Q)
  (k n : nat) (class_probs : list (list Q)) : list (list Q) :=
  fold_left (nms_iter bboxes nms_thresh) (seq k n) class_probs.

(** The class scores when iteration [i] starts: the loop run over
    [0, ..., i-1]. *)
Definition nms_prefix (bboxes : list (list Q)) (nms_thresh : Q)
  (class_probs : list (list Q)) (i : nat) : list (list Q) :=
  nms_range bboxes nms_thresh 0 i class_probs.

(** Line 54: [for i, bbox in enumerate(bboxes[:-1])]. *)
Definition nms_loop (bboxes : list (list Q)) (nms_thresh : Q)
  (class_probs : list (list Q)) : list (list Q) :=
  nms_prefix bboxes nms_thresh class_probs (length bboxes - 1).

(** Line 39: [preds[..., YOLO_TX:YOLO_TH+1]]. *)
Definition bbox_attrs_of (preds : tensor) : list (list Q) :=
  map (slice YOLO_TX (S YOLO_TH)) (rows preds).

(** Line 40: what the view [preds[..., YOLO_CLASS_START:]] reads. *)
Definition class_probs_of (preds : tensor) : list (list Q) :=
  map (skipn YOLO_CLASS_START) (rows preds).

(** Where writes through the view [preds[..., YOLO_CLASS_START:]] land:
    the columns before [YOLO_CLASS_START] are outside the view. *)
Definition put_cls (row cls : list Q) : list Q :=
  firstn YOLO_CLASS_START row ++ cls.

Definition store_class_probs (preds : tensor) (class_probs : list (list Q))
  : tensor :=
  mkTensor (ncols preds) (map2 put_cls (rows preds) class_probs).

(** Lines 42-51. *)
Definition bboxes_of (preds : tensor) : list (list Q) :=
  map corners (bbox_attrs_of preds).

(** [greedy_nms_inplace(preds, nms_thresh)]: how the call ends and the buffer
    it leaves.  [bbox_attrs[..., YOLO_TW]] and [bbox_attrs[..., YOLO_TH]]
    raise when [bbox_attrs] has too few columns, before any write. *)
Definition greedy_nms_inplace (preds : tensor) (nms_thresh : Q)
  : outcome * tensor :=
  if Nat.leb (Nat.min (ncols preds - YOLO_TX) (S YOLO_TH - YOLO_TX)) YOLO_TH
  then (IndexError, preds)
  else
    (Returned,
     store_class_probs preds
       (nms_loop (bboxes_of preds) nms_thresh (class_probs_of preds))).

(** ** [run_nms_inplace] *)

(** Modelled from the spec: the class of [yolo_layer] is not among the
    sources.  The per-layer suppression configuration is a kind and an
    overlap threshold; [run_nms_inplace] reads [nms_kind] only. *)
Record yolo_layer : Type := mkLayer { nms_kind : string; threshold : Q }.

Section Dispatcher.

(** Constants of [utilities/constants.py], which is not among the
    sources: the kind of the greedy strategy and the default threshold of
    [greedy_nms_inplace]. *)
Variable GREEDY_NMS : string.
Variable NMS_THRESHOLD : Q.

(** [run_nms_inplace(preds, yolo_layer)]; [greedy_nms_inplace(preds)]
    takes its default argument [nms_thresh=NMS_THRESHOLD]. *)
Definition run_nms_inplace (preds : tensor) (layer : yolo_layer)
  : outcome * tensor :=
  if String.eqb (nms_kind layer) GREEDY_NMS
  then greedy_nms_inplace preds NMS_THRESHOLD
  else (Returned, preds).

End Dispatcher.

(** ** [inference_video_to_video] ([utilities/inferencing.py]) *)

(** How a call of [inference_video_to_video] ends: it returns [fps], which
    is [None] or a number, or the division [frame_count / sum_time] raises. *)
Inductive video_result : Type :=
| Fps (fps : option Q)
| ZeroDivisionError.

Section Video.

(** The collaborators are not among the sources ([utilities/images.py],
    [utilities/detections.py], the darknet model); each is taken as a
    function of the arguments that vary from frame to frame, the arguments
    the call passes unchanged ([network_dim], [letterbox], [obj_thresh],
    [class_names]) being fixed.  [preprocess_image_eval] stands for the
    call followed by [unsqueeze(0)], [extract_detections] for the call
    followed by [[0]], and [correct_detections] reads the height and the
    width of the frame. *)
Variables frame input predictions detections : Type.
Variable preprocess_image_eval : frame -> input.
Variable model : input -> predictions.
Variable extract_detections : predictions -> detections.
Variable correct_detections : detections -> frame -> detections.
Variable draw_detections : detections -> frame -> frame.

(** The benchmark kinds of [utilities/constants.py], which is not among the
    sources. *)
Variables NO_BENCHMARK MODEL_ONLY MODEL_WITH_PP MODEL_WITH_IO : nat.

(** [clock n] is what the call number [n] of [time.time()] returns. *)
Variable clock : nat -> Q.

(** The frames written to [video_out], the number of [time.time()] calls
    made, and the local variables [start_time], [sum_time] and
    [frame_count].  [start_time] is read only after an assignment under
    the same condition, so its value before the first one does not count. *)
Record video_state : Type := mkVideo {
  written : list frame;
  ticks : nat;
  start_time : Q;
  sum_time : Q;
  frame_count : nat
}.

(** [if(cond): synchronize_device(); start_time = time.time()]. *)
Definition read_start (cond : bool) (st : video_state) : video_state :=
  if cond
  then mkVideo (written st) (S (ticks st)) (clock (ticks st))
               (sum_time st) (frame_count st)
  else st.

(** [if(cond): synchronize_device(); sum_time += time.time() - start_time]. *)
Definition read_end (cond : bool) (st : video_state) : video_state :=
  if cond
  then mkVideo (written st) (S (ticks st)) (start_time st)
               (sum_time st + (clock (ticks st) - start_time st))
               (frame_count st)
  else st.

(** What the collaborators make of one frame (lines 97-117). *)
Definition output_frame_of (f : frame) : frame :=
  let x := preprocess_image_eval f in
  let preds := model x in
  let dets := extract_detections preds in
  let dets := correct_detections dets f in
  draw_detections dets f.

(** [video_out.write(output_frame)]. *)
Definition write_frame (output_frame : frame) (st : video_state)
  : video_state :=
  mkVideo (written st ++ [output_frame]) (ticks st) (start_time st)
          (sum_time st) (frame_count st).

(** [frame_count += 1]. *)
Definition count_frame (st : video_state) : video_state :=
  mkVideo (written st) (ticks st) (start_time st) (sum_time st)
          (S (frame_count st)).

(** Lines 81-132: one pass of the loop body on a frame that was read. *)
Definition video_frame (benchmark : nat) (f : frame) (st : video_state)
  : video_state :=
  let st := read_start (Nat.eqb benchmark MODEL_WITH_IO) st in
  let st := read_start (Nat.eqb benchmark MODEL_WITH_PP) st in
  let st := read_start (Nat.eqb benchmark MODEL_ONLY) st in
  let st := read_end (Nat.eqb benchmark MODEL_ONLY) st in
  let output_frame := output_frame_of f in
  let st := read_end (Nat.eqb benchmark MODEL_WITH_PP) st in
  let st := write_frame output_frame st in
  let st := read_end (Nat.eqb benchmark MODEL_WITH_IO) st in
  count_frame st.

(** The loop (lines 80-144) over the frames that [video_in.read()] gives
    before it reports the end.  The flag is set when
    [fps_so_far = frame_count / sum_time] (line 138) raises; what is
    printed is not modelled. *)
Fixpoint video_loop (benchmark : nat) (verbose : bool) (frames : list frame)
  (st : video_state) : bool * video_state :=
  match frames with
  | [] => (false, read_start (Nat.eqb benchmark MODEL_WITH_IO) st)
  | f :: rest =>
      let st := video_frame benchmark f st in
      if verbose && negb (Nat.eqb benchmark NO_BENCHMARK)
         && Qeq_bool (sum_time st) 0
      then (true, st)
      else video_loop benchmark verbose rest st
  end.

(** [frame_count] as a number. *)
Definition Qcount (n : nat) : Q := inject_Z (Z.of_nat n).

(** [inference_video_to_video(model, video_in, video_out, ..., benchmark,
    verbose)]: how the call ends and the frames it wrote to [video_out]. *)
Definition inference_video_to_video (benchmark : nat) (verbose : bool)
  (video_in : list frame) : video_result * list frame :=
  let (raised, st) :=
    video_loop benchmark verbose video_in (mkVideo [] 0 0 0 0) in
  if raised then (ZeroDivisionError, written st)
  else if negb (Nat.eqb benchmark NO_BENCHMARK)
  then if Qeq_bool (sum_time st) 0
       then (ZeroDivisionError, written st)
       else (Fps (Some (Qcount (frame_count st) / sum_time st)), written st)
  else (Fps None, written st).

End Video.

(** The time that the benchmark adds up over [n] frames: for each frame the
    difference of the two readings taken around its stage. *)
Fixpoint elapsed (clock : nat -> Q) (n : nat) : Q :=
  match n with
  | O => 0
  | S k => elapsed clock k + (clock (2 * k + 1)%nat - clock (2 * k)%nat)
  end.

(** ** Vocabulary of the properties *)

(** [t[r][c]], read as 0 outside the tensor. *)
Definition entry (t : list (list Q)) (r c : nat) : Q := col c (nth r t []).

(** The class score [preds[i][YOLO_CLASS_START + c]]. *)
Definition score (preds : tensor) (i c : nat) : Q :=
  entry (class_probs_of preds) i c.

Definition n_boxes (preds : tensor) : nat := length (rows preds).

Definition n_classes (preds : tensor) : nat := ncols preds - YOLO_CLASS_START.

(** The IOU that iteration [i] computes for the later box [j]. *)
Definition iou_of (bboxes : list (list Q)) (i j : nat) : fval :=
  bbox_iou1 (nth i bboxes []) (nth j bboxes []).

(** The entry of [thresh_mask] for the pair [(i, j)]. *)
Definition overlaps (bboxes : list (list Q)) (nms_thresh : Q) (i j : nat)
  : bool :=
  fgt (iou_of bboxes i j) nms_thresh.

(** The class scores of [preds] when iteration [i] of
    [greedy_nms_inplace(preds, nms_thresh)] starts, and when it ends. *)
Definition scores_before (preds : tensor) (nms_thresh : Q) (i : nat)
  : list (list Q) :=
  nms_prefix (bboxes_of preds) nms_thresh (class_probs_of preds) i.

Definition scores_after (preds : tensor) (nms_thresh : Q) (i : nat)
  : list (list Q) :=
  nms_iter (bboxes_of preds) nms_thresh (scores_before preds nms_thresh i) i.

(** The buffer that [greedy_nms_inplace(preds, nms_thresh)] leaves. *)
Definition suppressed (preds : tensor) (nms_thresh : Q) : tensor :=
  snd (greedy_nms_inplace preds nms_thresh).

(** Two score tables of one shape. *)
Definition same_shape (s t : list (list Q)) : Prop :=
  length s = length t /\
  forall r, length (nth r s []) = length (nth r t []).

(** Every class score is a confidence: it is not negative. *)
Definition scores_nonneg (t : list (list Q)) : Prop :=
  forall r c, 0 <= entry t r c.

(** All rows of a score table have [C] entries. *)
Definition width (C : nat) (t : list (list Q)) : Prop :=
  forall r, (r < length t)%nat -> length (nth r t []) = C.

(** After a pass over confidences, of two boxes that overlap one has lost
    each class: the later box holds 0, or the earlier box holds 0 and the
    later one a positive score. *)
Definition settled (bboxes : list (list Q)) (nms_thresh : Q)
  (t : list (list Q)) : Prop :=
  forall i j c, (i < j < length t)%nat ->
    overlaps bboxes nms_thresh i j = true ->
    entry t j c = 0 \/ (entry t i c = 0 /\ 0 < entry t j c).

(** Two score tables over the boxes [bboxes] that hold class [c] and agree
    on it. *)
Definition agree_on (bboxes : list (list Q)) (c : nat)
  (s t : list (list Q)) : Prop :=
  length bboxes = length s /\ length bboxes = length t /\
  (forall r, (r < length s)%nat -> (c < length (nth r s []))%nat) /\
  (forall r, (r < length t)%nat -> (c < length (nth r t []))%nat) /\
  forall r, entry s r c = entry t r c.

(** ** Example buffers *)

(** Two boxes of IOU 2/3 and two classes; the scores of class 1 tie. *)
Definition two_boxes : tensor := mkTensor 7
  [ [0; 0; 10; 10; 1; 9#10; 3#10];
    [2; 0; 10; 10; 1; 7#10; 3#10] ].

(** Two boxes of IOU 1/9. *)
Definition far_boxes : tensor := mkTensor 6
  [ [0; 0; 10; 10; 1; 9#10];
    [8; 0; 10; 10; 1; 7#10] ].

(** Box 0 overlaps box 1 and box 2 (IOU 2/3); box 1 and box 2 do not
    overlap at threshold 1/2 (IOU 3/7). *)
Definition three_boxes : tensor := mkTensor 6
  [ [0; 0; 10; 10; 1; 5#10];
    [2; 0; 10; 10; 1; 9#10];
    [-2; 0; 10; 10; 1; 3#10] ].

(** Twice the same box: IOU 1. *)
Definition same_boxes : tensor := mkTensor 6
  [ [0; 0; 2; 2; 1; 9#10];
    [0; 0; 2; 2; 1; 7#10] ].

(** Scores below zero, which the data model excludes. *)
Definition negative_scores : tensor := mkTensor 6
  [ [0; 0; 2; 2; 1; -1];
    [0; 0; 2; 2; 1; -2] ].

(** The boxes of [two_boxes] with the scores of class 0 alone. *)
Definition two_boxes_one_class : tensor := mkTensor 6
  [ [0; 0; 10; 10; 1; 9#10];
    [2; 0; 10; 10; 1; 7#10] ].

(** A clock that advances by one at each reading, and a video pipeline over
    numbers as frames: the model adds one, the drawing adds the frame; the
    benchmark kinds are 0 to 3. *)
Definition demo_clock (n : nat) : Q := inject_Z (Z.of_nat n).

Definition demo_video : nat -> bool -> list nat -> video_result * list nat :=
  inference_video_to_video nat nat nat nat
    (fun f => f) S (fun p => p) (fun d _ => d) (fun d f => (d + f)%nat)
    0 1 2 3 demo_clock.

(** * Properties *)

(** ** Numbers *)

Lemma Qltb_lt (a b : Q) : Qltb a b = true <-> a < b.
Proof.
  unfold Qltb. rewrite Qlt_alt.
  destruct (a ?= b); split; intro H; congruence.
Qed.

Lemma Qltb_ge (a b : Q) : Qltb a b = false <-> b <= a.
Proof.
  rewrite <- not_true_iff_false, Qltb_lt. split.
  - apply Qnot_lt_le.
  - apply Qle_not_lt.
Qed.

Lemma Qeq_bool_false (x y : Q) : ~ x == y -> Qeq_bool x y = false.
Proof.
  intro H. destruct (Qeq_bool x y) eqn:E; [|reflexivity].
  apply Qeq_bool_iff in E. contradiction.
Qed.

Lemma clamp_min_0_cases (x : Q) :
  (x < 0 /\ clamp_min x 0 = 0) \/ (0 <= x /\ clamp_min x 0 = x).
Proof.
  unfold clamp_min. destruct (Qltb x 0) eqn:E.
  - left. split; [now apply Qltb_lt | reflexivity].
  - right. split; [now apply Qltb_ge | reflexivity].
Qed.

Lemma clamp_min_0_nonneg (x : Q) : 0 <= clamp_min x 0.
Proof.
  destruct (clamp_min_0_cases x) as [[_ ->]|[H ->]]; [apply Qle_refl | exact H].
Qed.

Lemma clamp_min_0_le (x w : Q) : 0 <= w -> x <= w -> clamp_min x 0 <= w.
Proof.
  intros Hw Hx.
  destruct (clamp_min_0_cases x) as [[_ ->]|[_ ->]]; assumption.
Qed.

Lemma clamp_min_0_compat (x y : Q) : x == y -> clamp_min x 0 == clamp_min y 0.
Proof.
  intro E.
  destruct (clamp_min_0_cases x) as [[Hx ->]|[Hx ->]];
    destruct (clamp_min_0_cases y) as [[Hy ->]|[Hy ->]]; lra.
Qed.

(** ** [bbox_iou] *)

Section Iou.

Variables a b : list Q.

Lemma inter_w_sym : inter_w a b == inter_w b a.
Proof.
  unfold inter_w. apply clamp_min_0_compat.
  rewrite (Q.max_comm (col BBOX_X1 a)), (Q.min_comm (col BBOX_X2 a)).
  reflexivity.
Qed.

Lemma inter_h_sym : inter_h a b == inter_h b a.
Proof.
  unfold inter_h. apply clamp_min_0_compat.
  rewrite (Q.max_comm (col BBOX_Y1 a)), (Q.min_comm (col BBOX_Y2 a)).
  reflexivity.
Qed.

Lemma interArea_sym : interArea a b == interArea b a.
Proof. unfold interArea. now rewrite inter_w_sym, inter_h_sym. Qed.

Lemma unionArea_sym : unionArea a b == unionArea b a.
Proof. unfold unionArea. rewrite interArea_sym. ring. Qed.

Lemma inter_w_le_l :
  col BBOX_X1 a <= col BBOX_X2 a ->
  inter_w a b <= col BBOX_X2 a - col BBOX_X1 a.
Proof.
  intro Ha. unfold inter_w. apply clamp_min_0_le; [lra|].
  pose proof (Q.le_max_l (col BBOX_X1 a) (col BBOX_X1 b)).
  pose proof (Q.le_min_l (col BBOX_X2 a) (col BBOX_X2 b)).
  lra.
Qed.

Lemma inter_h_le_l :
  col BBOX_Y1 a <= col BBOX_Y2 a ->
  inter_h a b <= col BBOX_Y2 a - col BBOX_Y1 a.
Proof.
  intro Ha. unfold inter_h. apply clamp_min_0_le; [lra|].
  pose proof (Q.le_max_l (col BBOX_Y1 a) (col BBOX_Y1 b)).
  pose proof (Q.le_min_l (col BBOX_Y2 a) (col BBOX_Y2 b)).
  lra.
Qed.

Lemma inter_w_nonneg : 0 <= inter_w a b.
Proof. apply clamp_min_0_nonneg. Qed.

Lemma inter_h_nonneg : 0 <= inter_h a b.
Proof. apply clamp_min_0_nonneg. Qed.

Lemma inter_w_disjoint :
  col BBOX_X2 a <= col BBOX_X1 b \/ col BBOX_X2 b <= col BBOX_X1 a ->
  inter_w a b == 0.
Proof.
  intro H. unfold inter_w.
  pose proof (Q.le_max_l (col BBOX_X1 a) (col BBOX_X1 b)).
  pose proof (Q.le_max_r (col BBOX_X1 a) (col BBOX_X1 b)).
  pose proof (Q.le_min_l (col BBOX_X2 a) (col BBOX_X2 b)).
  pose proof (Q.le_min_r (col BBOX_X2 a) (col BBOX_X2 b)).
  match goal with
  | |- clamp_min ?x 0 == 0 =>
      destruct (clamp_min_0_cases x) as [[_ ->]|[Hx ->]]
  end; [reflexivity | lra].
Qed.

Lemma inter_h_disjoint :
  col BBOX_Y2 a <= col BBOX_Y1 b \/ col BBOX_Y2 b <= col BBOX_Y1 a ->
  inter_h a b == 0.
Proof.
  intro H. unfold inter_h.
  pose proof (Q.le_max_l (col BBOX_Y1 a) (col BBOX_Y1 b)).
  pose proof (Q.le_max_r (col BBOX_Y1 a) (col BBOX_Y1 b)).
  pose proof (Q.le_min_l (col BBOX_Y2 a) (col BBOX_Y2 b)).
  pose proof (Q.le_min_r (col BBOX_Y2 a) (col BBOX_Y2 b)).
  match goal with
  | |- clamp_min ?x 0 == 0 =>
      destruct (clamp_min_0_cases x) as [[_ ->]|[Hx ->]]
  end; [reflexivity | lra].
Qed.

Lemma interArea_nonneg : 0 <= interArea a b.
Proof.
  unfold interArea. apply Qmult_le_0_compat;
    [apply inter_w_nonneg | apply inter_h_nonneg].
Qed.

Lemma interArea_le_area_l :
  col BBOX_X1 a <= col BBOX_X2 a -> col BBOX_Y1 a <= col BBOX_Y2 a ->
  interArea a b <= bbox_area a.
Proof.
  intros Hx Hy. unfold interArea, bbox_area.
  pose proof inter_w_nonneg. pose proof inter_h_nonneg.
  pose proof (inter_w_le_l Hx). pose proof (inter_h_le_l Hy).
  nra.
Qed.

End Iou.

(** C8.  The pairwise IOU is symmetric: for two corner-form boxes whose
    union area is not zero, [bbox_iou] of (a, b) and of (b, a) are finite
    and equal. *)
Theorem bbox_iou_symmetric (a b : list Q) :
  ~ unionArea a b == 0 ->
  exists p q : Q,
    bbox_iou1 a b = Fin p /\ bbox_iou1 b a = Fin q /\ p == q /\
    feq (bbox_iou1 a b) (bbox_iou1 b a).
Proof.
  intro Hu.
  assert (Hu' : ~ unionArea b a == 0)
    by (intro E; apply Hu; now rewrite unionArea_sym).
  unfold bbox_iou1, fdiv.
  rewrite (Qeq_bool_false _ _ Hu), (Qeq_bool_false _ _ Hu').
  assert (E : interArea a b / unionArea a b == interArea b a / unionArea b a)
    by (now rewrite interArea_sym, unionArea_sym).
  exists (interArea a b / unionArea a b), (interArea b a / unionArea b a).
  repeat split; [exact E | exact E].
Qed.

Lemma bbox_iou_symmetric_witness :
  exists p q : Q,
    bbox_iou1 [0; 0; 10; 10] [2; 0; 12; 10] = Fin p /\
    bbox_iou1 [2; 0; 12; 10] [0; 0; 10; 10] = Fin q /\ p == q /\
    feq (bbox_iou1 [0; 0; 10; 10] [2; 0; 12; 10])
        (bbox_iou1 [2; 0; 12; 10] [0; 0; 10; 10]).
Proof.
  apply (bbox_iou_symmetric [0; 0; 10; 10] [2; 0; 12; 10]).
  vm_compute. discriminate.
Defined.

(** C9.  For two corner-form boxes with [x2 >= x1] and [y2 >= y1] and a
    positive union area, the IOU is a finite number between 0 and 1.  The
    width and the height of the intersection are clamped: they are never
    negative, and an axis on which the boxes do not overlap contributes 0. *)
Theorem bbox_iou_bounded (a b : list Q) :
  col BBOX_X1 a <= col BBOX_X2 a -> col BBOX_Y1 a <= col BBOX_Y2 a ->
  col BBOX_X1 b <= col BBOX_X2 b -> col BBOX_Y1 b <= col BBOX_Y2 b ->
  0 < unionArea a b ->
  (exists q : Q, bbox_iou1 a b = Fin q /\ 0 <= q /\ q <= 1) /\
  0 <= inter_w a b /\ 0 <= inter_h a b /\ 0 <= interArea a b /\
  (col BBOX_X2 a <= col BBOX_X1 b \/ col BBOX_X2 b <= col BBOX_X1 a ->
   inter_w a b == 0) /\
  (col BBOX_Y2 a <= col BBOX_Y1 b \/ col BBOX_Y2 b <= col BBOX_Y1 a ->
   inter_h a b == 0).
Proof.
  intros Hax Hay Hbx Hby Hu.
  pose proof (interArea_nonneg a b) as Hi.
  pose proof (interArea_le_area_l a b Hax Hay) as Hia.
  assert (Hib : interArea a b <= bbox_area b)
    by (rewrite interArea_sym; now apply interArea_le_area_l).
  split; [|repeat split;
           [apply inter_w_nonneg | apply inter_h_nonneg | exact Hi
           | apply inter_w_disjoint | apply inter_h_disjoint]].
  exists (interArea a b / unionArea a b). unfold bbox_iou1, fdiv.
  rewrite Qeq_bool_false by lra.
  split; [reflexivity|]. split.
  - apply Qle_shift_div_l; [exact Hu | lra].
  - apply Qle_shift_div_r; [exact Hu |]. unfold unionArea in *. lra.
Qed.

Lemma bbox_iou_bounded_witness :
  exists q : Q,
    bbox_iou1 [0; 0; 10; 10] [2; 0; 12; 10] = Fin q /\ 0 <= q /\ q <= 1.
Proof.
  apply (bbox_iou_bounded [0; 0; 10; 10] [2; 0; 12; 10]);
    vm_compute; first [discriminate | reflexivity].
Defined.

(** ** Tensor operations *)

Lemma map2_repeat {A B C : Type} (f : A -> B -> C) (x : A) (l : list B) :
  map2 f (expand_as x l) l = map (f x) l.
Proof.
  unfold expand_as. induction l as [|y l IH]; simpl; [reflexivity|].
  now rewrite IH.
Qed.

Lemma nth_map_in {A B : Type} (f : A -> B) (l : list A) (k : nat)
  (d : A) (e : B) :
  (k < length l)%nat -> nth k (map f l) e = f (nth k l d).
Proof.
  intro H. rewrite (nth_indep _ e (f d)) by (now rewrite length_map).
  apply map_nth.
Qed.

Lemma existsb_map {A B : Type} (f : B -> bool) (g : A -> B) (l : list A) :
  existsb f (map g l) = existsb (fun x => f (g x)) l.
Proof. induction l as [|x l IH]; simpl; [reflexivity | now rewrite IH]. Qed.

Lemma masked_zero_nil (mask : list bool) : masked_zero mask [] = [].
Proof. now destruct mask. Qed.

Lemma masked_zero_length (mask : list bool) (row : list Q) :
  length (masked_zero mask row) = length row.
Proof.
  revert row. induction mask as [|m mask IH]; intros [|x row]; simpl;
    try reflexivity.
  now rewrite IH.
Qed.

Lemma masked_zero_false (row : list Q) :
  masked_zero (map (fun _ => false) row) row = row.
Proof. induction row as [|x row IH]; simpl; [reflexivity | now rewrite IH]. Qed.

Lemma masked_zero_col (mask : list bool) (row : list Q) (c : nat) :
  col c (masked_zero mask row) = if nth c mask false then 0 else col c row.
Proof.
  unfold col. revert row c.
  induction mask as [|m mask IH]; intros row c.
  - simpl. destruct row; now destruct c.
  - destruct row as [|x row].
    + rewrite masked_zero_nil. destruct c; simpl;
        now match goal with |- _ = if ?b then _ else _ => destruct b end.
    + destruct c as [|c]; simpl; [reflexivity | apply IH].
Qed.

Lemma masked_zero2_length (mask : list (list bool)) (t : list (list Q)) :
  length (masked_zero2 mask t) = length t.
Proof.
  revert t. induction mask as [|m mask IH]; intros [|r t]; simpl;
    try reflexivity.
  now rewrite IH.
Qed.

Lemma masked_zero2_zeros (t : list (list Q)) :
  masked_zero2 (zeros_like t) t = t.
Proof.
  induction t as [|r t IH]; simpl; [reflexivity|].
  now rewrite masked_zero_false, IH.
Qed.

Lemma zero_expanded_length (mask : list (list bool)) (row : list Q) :
  length (zero_expanded mask row) = length row.
Proof.
  unfold zero_expanded. revert row.
  induction mask as [|m mask IH]; intro row; simpl; [reflexivity|].
  now rewrite IH, masked_zero_length.
Qed.

Lemma zero_expanded_col (mask : list (list bool)) (row : list Q) (c : nat) :
  col c (zero_expanded mask row)
  = if existsb (fun m => nth c m false) mask then 0 else col c row.
Proof.
  unfold zero_expanded. revert row.
  induction mask as [|m mask IH]; intro row; simpl; [reflexivity|].
  rewrite IH, masked_zero_col.
  destruct (nth c m false); simpl; [|reflexivity].
  now destruct (existsb _ mask).
Qed.

Lemma existsb_masked_select {A : Type} (f : A -> bool) (d : A)
  (mask : list bool) (t : list A) :
  existsb f (masked_select mask t) = true <->
  exists k, (k < length t)%nat /\ nth k mask false = true /\
            f (nth k t d) = true.
Proof.
  revert t. induction mask as [|m mask IH]; intros t.
  - simpl. split; [discriminate|]. intros (k & _ & H & _). now destruct k.
  - destruct t as [|x t].
    + simpl. split; [discriminate|]. intros (k & H & _). inversion H.
    + assert (Hstep : existsb f (masked_select (m :: mask) (x :: t)) = true
                      <-> (m = true /\ f x = true)
                          \/ existsb f (masked_select mask t) = true).
      { simpl. destruct m; simpl.
        - rewrite orb_true_iff. tauto.
        - split; [tauto | intros [[H _]|H]; [discriminate | exact H]]. }
      rewrite Hstep, IH. split.
      * intros [[Hm Hf]|(k & Hk & Hmk & Hfk)].
        -- exists O. simpl. split; [lia | tauto].
        -- exists (S k). simpl. split; [lia | tauto].
      * intros ([|k] & Hk & Hmk & Hfk); simpl in *.
        -- left. tauto.
        -- right. exists k. split; [lia | tauto].
Qed.

Lemma map2_Qltb_nth (ra rb : list Q) (c : nat) :
  (c < length ra)%nat -> (c < length rb)%nat ->
  nth c (map2 Qltb ra rb) false = Qltb (col c ra) (col c rb).
Proof.
  unfold col. revert rb c.
  induction ra as [|x ra IH]; intros [|y rb] c Ha Hb; simpl in *; try lia.
  destruct c as [|c]; [reflexivity|]. apply IH; lia.
Qed.

Lemma map2_Qltb_length (ra rb : list Q) :
  length (map2 Qltb ra rb) = Nat.min (length ra) (length rb).
Proof.
  revert rb. induction ra as [|x ra IH]; intros [|y rb]; simpl;
    try reflexivity.
  now rewrite IH.
Qed.

(** The rows that line 74 leaves in [class_b]. *)
Lemma later_rows_nth (ra : list Q) (mask : list bool) (cb : list (list Q))
  (k : nat) :
  nth k
    (masked_zero2
       (masked_assign mask
          (map (map negb) (map (map2 Qltb ra) (masked_select mask cb)))
          (zeros_like cb)) cb) []
  = if nth k mask false
    then masked_zero (map negb (map2 Qltb ra (nth k cb []))) (nth k cb [])
    else nth k cb [].
Proof.
  revert cb k. induction mask as [|m mask IH]; intros cb k.
  - simpl. rewrite masked_zero2_zeros. now destruct k.
  - destruct cb as [|r cb].
    + simpl. destruct k; simpl; rewrite masked_zero_nil;
        now match goal with |- _ = if ?b then _ else _ => destruct b end.
    + destruct m; simpl.
      * destruct k as [|k]; [reflexivity | apply IH].
      * destruct k as [|k]; [apply masked_zero_false | apply IH].
Qed.

Lemma map2_Qltb_true (ra rb : list Q) (c : nat) :
  nth c (map2 Qltb ra rb) false = true ->
  (c < length ra)%nat /\ (c < length rb)%nat /\ col c ra < col c rb.
Proof.
  intro H.
  assert (Hc : (c < length (map2 Qltb ra rb))%nat).
  { destruct (Nat.lt_ge_cases c (length (map2 Qltb ra rb))) as [L|L];
      [exact L|]. rewrite nth_overflow in H by exact L. discriminate. }
  rewrite map2_Qltb_length in Hc.
  assert (Ha : (c < length ra)%nat) by lia.
  assert (Hb : (c < length rb)%nat) by lia.
  rewrite map2_Qltb_nth in H by assumption.
  repeat split; try assumption. now apply Qltb_lt.
Qed.

Lemma negb_map2_Qltb_true (ra rb : list Q) (c : nat) :
  nth c (map negb (map2 Qltb ra rb)) false = true ->
  (c < length ra)%nat /\ (c < length rb)%nat /\ col c rb <= col c ra.
Proof.
  intro H.
  assert (Hc : (c < length (map2 Qltb ra rb))%nat).
  { destruct (Nat.lt_ge_cases c (length (map2 Qltb ra rb))) as [L|L];
      [exact L|].
    rewrite nth_overflow in H by (now rewrite length_map). discriminate. }
  rewrite (nth_map_in negb _ _ false false Hc) in H.
  rewrite map2_Qltb_length in Hc.
  assert (Ha : (c < length ra)%nat) by lia.
  assert (Hb : (c < length rb)%nat) by lia.
  rewrite map2_Qltb_nth in H by assumption.
  repeat split; try assumption.
  apply Qltb_ge. now apply negb_true_iff.
Qed.

(** ** One iteration of the loop *)

Section Iteration.

Variable bboxes : list (list Q).
Variable nms_thresh : Q.

Let iter := nms_iter bboxes nms_thresh.
Let ov := overlaps bboxes nms_thresh.

Lemma thresh_mask_nth (i k : nat) :
  nth k (thresh_mask bboxes nms_thresh i) false
  = (S i + k <? length bboxes)%nat && ov i (S i + k).
Proof.
  unfold thresh_mask, bbox_iou. rewrite map2_repeat, map_map.
  destruct (S i + k <? length bboxes)%nat eqn:E.
  - apply Nat.ltb_lt in E.
    rewrite (nth_map_in _ _ _ [] false) by (rewrite length_skipn; lia).
    now rewrite nth_skipn.
  - apply Nat.ltb_ge in E.
    apply nth_overflow. rewrite length_map, length_skipn. lia.
Qed.

Variable cp : list (list Q).
Variable i : nat.
Hypothesis Hi : (i < length cp)%nat.

Lemma nms_iter_length : length (iter cp i) = length cp.
Proof.
  unfold iter, nms_iter. rewrite length_app, length_firstn.
  cbn [length]. rewrite masked_zero2_length, length_skipn. lia.
Qed.

Lemma nms_iter_earlier (r : nat) :
  (r < i)%nat -> nth r (iter cp i) [] = nth r cp [].
Proof.
  intro Hr. unfold iter, nms_iter.
  rewrite app_nth1 by (rewrite length_firstn; lia).
  rewrite nth_firstn. now apply Nat.ltb_lt in Hr as ->.
Qed.

Lemma nms_iter_own (c : nat) :
  entry (iter cp i) i c
  = if existsb (fun rb => nth c (map2 Qltb (nth i cp []) rb) false)
         (masked_select (thresh_mask bboxes nms_thresh i)
            (skipn (S i) cp))
    then 0 else entry cp i c.
Proof.
  unfold entry, iter, nms_iter.
  rewrite app_nth2 by (rewrite length_firstn; lia).
  replace (i - length (firstn i cp))%nat with O
    by (rewrite length_firstn; lia).
  cbn [nth]. rewrite zero_expanded_col. unfold class_zero_a.
  rewrite map2_repeat, existsb_map. reflexivity.
Qed.

Lemma nms_iter_later (j : nat) :
  (i < j)%nat ->
  nth j (iter cp i) []
  = if (j <? length bboxes)%nat && ov i j
    then masked_zero
           (map negb (map2 Qltb (nth i cp []) (nth j cp [])))
           (nth j cp [])
    else nth j cp [].
Proof.
  intro Hj. unfold iter, nms_iter.
  rewrite app_nth2 by (rewrite length_firstn; lia).
  replace (j - length (firstn i cp))%nat with (S (j - S i))
    by (rewrite length_firstn; lia).
  cbn [nth]. unfold zero_mask_b, class_zero_a.
  rewrite map2_repeat, later_rows_nth, thresh_mask_nth, nth_skipn.
  replace (S i + (j - S i))%nat with j by lia. reflexivity.
Qed.

End Iteration.

Section IterationEntries.

Variable bboxes : list (list Q).
Variable nms_thresh : Q.
Variable cp : list (list Q).
Variable i : nat.
Hypothesis Hi : (i < length cp)%nat.
Hypothesis Hlen : length bboxes = length cp.

Let iter := nms_iter bboxes nms_thresh.
Let ov := overlaps bboxes nms_thresh.

(** Line 65 raises a flag for class [c] exactly when a later box that
    overlaps box [i] holds a strictly greater score. *)
Lemma own_flag_iff (c : nat) :
  existsb (fun rb => nth c (map2 Qltb (nth i cp []) rb) false)
    (masked_select (thresh_mask bboxes nms_thresh i) (skipn (S i) cp))
  = true
  <-> exists j, (i < j < length cp)%nat /\ ov i j = true /\
        nth c (map2 Qltb (nth i cp []) (nth j cp [])) false = true.
Proof.
  rewrite (existsb_masked_select _ []). split.
  - intros (k & Hk & Hm & Hf).
    rewrite length_skipn in Hk. rewrite thresh_mask_nth in Hm.
    apply andb_true_iff in Hm as [_ Hm]. rewrite nth_skipn in Hf.
    exists (S i + k)%nat. repeat split; [lia | lia | exact Hm | exact Hf].
  - intros (j & Hj & Ho & Hf).
    exists (j - S i)%nat. rewrite length_skipn, thresh_mask_nth, nth_skipn.
    replace (S i + (j - S i))%nat with j by lia.
    repeat split; [lia | | exact Hf].
    apply andb_true_iff. split; [apply Nat.ltb_lt; lia | exact Ho].
Qed.

Lemma iter_own_zeroed (j c : nat) :
  (i < j < length cp)%nat -> ov i j = true ->
  (c < length (nth i cp []))%nat -> (c < length (nth j cp []))%nat ->
  entry cp i c < entry cp j c ->
  entry (iter cp i) i c = 0.
Proof.
  intros Hj Ho Hci Hcj Hlt. unfold iter.
  rewrite nms_iter_own by exact Hi.
  replace (existsb _ _) with true; [reflexivity|].
  symmetry. apply own_flag_iff. exists j. repeat split; try tauto.
  rewrite map2_Qltb_nth by assumption. now apply Qltb_lt.
Qed.

Lemma iter_own_cases (c : nat) :
  entry (iter cp i) i c = entry cp i c \/
  (entry (iter cp i) i c = 0 /\
   exists j, (i < j < length cp)%nat /\ ov i j = true /\
     (c < length (nth i cp []))%nat /\ (c < length (nth j cp []))%nat /\
     entry cp i c < entry cp j c).
Proof.
  unfold iter. rewrite nms_iter_own by exact Hi.
  destruct (existsb _ _) eqn:E; [right | now left].
  split; [reflexivity|].
  apply own_flag_iff in E as (j & Hj & Ho & Hf).
  apply map2_Qltb_true in Hf. exists j. tauto.
Qed.

Lemma iter_later_cases (j c : nat) :
  (i < j)%nat ->
  (nth j (iter cp i) [] = nth j cp [] /\
   (ov i j = false \/ (length cp <= j)%nat)) \/
  (ov i j = true /\ (j < length cp)%nat /\
   ((entry (iter cp i) j c = entry cp j c /\
     ((c < length (nth i cp []))%nat -> (c < length (nth j cp []))%nat ->
      entry cp i c < entry cp j c)) \/
    (entry (iter cp i) j c = 0 /\
     (c < length (nth i cp []))%nat /\ (c < length (nth j cp []))%nat /\
     entry cp j c <= entry cp i c))).
Proof.
  intro Hj. unfold iter. rewrite nms_iter_later by assumption.
  destruct (j <? length bboxes)%nat eqn:Eb; simpl.
  - apply Nat.ltb_lt in Eb. fold ov. destruct (ov i j) eqn:Eo.
    + right. split; [reflexivity|]. split; [lia|].
      unfold entry. rewrite nms_iter_later by assumption.
      apply Nat.ltb_lt in Eb as ->. simpl. fold ov. rewrite Eo.
      rewrite masked_zero_col.
      destruct (nth c (map negb _) false) eqn:E.
      * right. apply negb_map2_Qltb_true in E. tauto.
      * left. split; [reflexivity|]. intros Hci Hcj.
        rewrite (nth_map_in negb _ _ false false) in E
          by (rewrite map2_Qltb_length; lia).
        rewrite map2_Qltb_nth in E by assumption.
        apply Qltb_lt. now apply negb_false_iff.
    + left. split; [reflexivity | now left].
  - apply Nat.ltb_ge in Eb. left. split; [reflexivity | right; lia].
Qed.

Lemma iter_later_zeroed (j c : nat) :
  (i < j < length cp)%nat -> ov i j = true ->
  (c < length (nth i cp []))%nat -> (c < length (nth j cp []))%nat ->
  ~ entry cp i c < entry cp j c ->
  entry (iter cp i) j c = 0.
Proof.
  intros Hj Ho Hci Hcj Hge.
  destruct (iter_later_cases j c (proj1 Hj))
    as [[_ [H|H]]|(_ & _ & [[_ H]|[H _]])].
  - congruence.
  - lia.
  - now specialize (H Hci Hcj).
  - exact H.
Qed.

Lemma iter_later_row_kept (j : nat) :
  (i < j)%nat -> ov i j = false -> nth j (iter cp i) [] = nth j cp [].
Proof.
  intros Hj Ho. unfold iter. rewrite nms_iter_later by assumption.
  fold ov. rewrite Ho. now rewrite andb_false_r.
Qed.

Lemma iter_only_zeroes (r c : nat) :
  entry (iter cp i) r c = entry cp r c \/ entry (iter cp i) r c = 0.
Proof.
  destruct (Nat.lt_trichotomy r i) as [Hr|[->|Hr]].
  - left. unfold entry, iter. now rewrite nms_iter_earlier.
  - destruct (iter_own_cases c) as [H|[H _]]; tauto.
  - destruct (iter_later_cases r c Hr)
      as [[H _]|(_ & _ & [[H _]|[H _]])]; try tauto.
    left. unfold entry. now rewrite H.
Qed.

Lemma iter_same_shape : same_shape (iter cp i) cp.
Proof.
  split; [now apply nms_iter_length|].
  intro r. destruct (Nat.lt_trichotomy r i) as [Hr|[->|Hr]].
  - unfold iter. now rewrite nms_iter_earlier.
  - unfold iter, nms_iter.
    rewrite app_nth2 by (rewrite length_firstn; lia).
    replace (i - length (firstn i cp))%nat with O
      by (rewrite length_firstn; lia).
    cbn [nth]. apply zero_expanded_length.
  - unfold iter. rewrite nms_iter_later by assumption.
    destruct (_ && _); [apply masked_zero_length | reflexivity].
Qed.

End IterationEntries.

(** ** The loop *)

Lemma same_shape_refl (s : list (list Q)) : same_shape s s.
Proof. now split. Qed.

Lemma same_shape_trans (s t u : list (list Q)) :
  same_shape s t -> same_shape t u -> same_shape s u.
Proof.
  intros [H1 H2] [H3 H4]. split; [congruence|].
  intro r. now rewrite H2.
Qed.

Lemma same_shape_width (C : nat) (s t : list (list Q)) :
  same_shape s t -> width C t -> width C s.
Proof.
  intros [H1 H2] Hw r Hr. rewrite H2. apply Hw. now rewrite <- H1.
Qed.

Section Loop.

Variable bboxes : list (list Q).
Variable nms_thresh : Q.

Let iter := nms_iter bboxes nms_thresh.
Let range := nms_range bboxes nms_thresh.
Let ov := overlaps bboxes nms_thresh.

Lemma nms_range_S (k n : nat) (s : list (list Q)) :
  range k (S n) s = iter (range k n s) (k + n)%nat.
Proof.
  unfold range, nms_range. now rewrite seq_S, fold_left_app.
Qed.

Lemma nms_range_app (k n m : nat) (s : list (list Q)) :
  range k (n + m) s = range (k + n) m (range k n s).
Proof.
  unfold range, nms_range. now rewrite seq_app, fold_left_app.
Qed.

Lemma range_same_shape (k n : nat) (s : list (list Q)) :
  length bboxes = length s -> (k + n <= length s)%nat ->
  same_shape (range k n s) s.
Proof.
  intro Hb. induction n as [|n IH]; intro H; [apply same_shape_refl|].
  rewrite nms_range_S.
  assert (IH' : same_shape (range k n s) s) by (apply IH; lia).
  apply same_shape_trans with (range k n s); [|exact IH'].
  destruct IH' as [E _]. apply iter_same_shape; rewrite E; [lia | exact Hb].
Qed.

Lemma range_length (k n : nat) (s : list (list Q)) :
  length bboxes = length s -> (k + n <= length s)%nat ->
  length (range k n s) = length s.
Proof. intros Hb H. now destruct (range_same_shape k n s Hb H). Qed.

Lemma range_only_zeroes (k n : nat) (s : list (list Q)) (r c : nat) :
  length bboxes = length s -> (k + n <= length s)%nat ->
  entry (range k n s) r c = entry s r c \/ entry (range k n s) r c = 0.
Proof.
  intro Hb. induction n as [|n IH]; intro H; [now left|].
  rewrite nms_range_S.
  assert (El : length (range k n s) = length s)
    by (apply range_length; [exact Hb | lia]).
  assert (Hl : (k + n < length (range k n s))%nat) by lia.
  assert (Hb' : length bboxes = length (range k n s)) by congruence.
  destruct (iter_only_zeroes bboxes nms_thresh _ _ Hl Hb' r c) as [E|E];
    [|now right].
  fold iter in E. rewrite E. apply IH. lia.
Qed.

Lemma range_earlier (k n : nat) (s : list (list Q)) (r : nat) :
  length bboxes = length s -> (k + n <= length s)%nat -> (r < k)%nat ->
  nth r (range k n s) [] = nth r s [].
Proof.
  intro Hb. induction n as [|n IH]; intros H Hr; [reflexivity|].
  rewrite nms_range_S.
  assert (El : length (range k n s) = length s)
    by (apply range_length; [exact Hb | lia]).
  unfold iter. rewrite nms_iter_earlier by lia.
  apply IH; lia.
Qed.

Lemma range_zero_stays (k n : nat) (s : list (list Q)) (r c : nat) :
  length bboxes = length s -> (k + n <= length s)%nat ->
  entry s r c = 0 -> entry (range k n s) r c = 0.
Proof.
  intros Hb H E. destruct (range_only_zeroes k n s r c Hb H); congruence.
Qed.

Variable cp : list (list Q).
Hypothesis Hlen : length bboxes = length cp.

Let prefix := nms_prefix bboxes nms_thresh cp.
Let final := nms_loop bboxes nms_thresh cp.

Lemma prefix_S (i : nat) : prefix (S i) = iter (prefix i) i.
Proof. unfold prefix, nms_prefix. apply nms_range_S. Qed.

Lemma prefix_same_shape (i : nat) :
  (i <= length cp)%nat -> same_shape (prefix i) cp.
Proof. intro H. apply range_same_shape; [exact Hlen | exact H]. Qed.

Lemma prefix_length (i : nat) :
  (i <= length cp)%nat -> length (prefix i) = length cp.
Proof. intro H. now destruct (prefix_same_shape i H). Qed.

Lemma final_same_shape : same_shape final cp.
Proof. apply range_same_shape; [exact Hlen | lia]. Qed.

Lemma final_only_zeroes (r c : nat) :
  entry final r c = entry cp r c \/ entry final r c = 0.
Proof. apply range_only_zeroes; [exact Hlen | lia]. Qed.

(** The loop, split at the end of iteration [i]. *)
Lemma final_split (i : nat) :
  (S i < length cp)%nat ->
  final = range (S i) (length cp - 1 - S i) (iter (prefix i) i).
Proof.
  intro H. rewrite <- prefix_S. unfold final, nms_loop, prefix, nms_prefix.
  rewrite Hlen.
  replace (length cp - 1)%nat with (S i + (length cp - 1 - S i))%nat
    at 1 by lia.
  apply nms_range_app.
Qed.

Lemma iter_prefix_length (i : nat) :
  (i < length cp)%nat -> length (iter (prefix i) i) = length cp.
Proof.
  intro H. unfold iter.
  rewrite nms_iter_length by (rewrite prefix_length; lia).
  apply prefix_length. lia.
Qed.

(** Row [i] is not written after iteration [i]. *)
Lemma final_own_row (i : nat) :
  (S i < length cp)%nat -> nth i final [] = nth i (iter (prefix i) i) [].
Proof.
  intro H. rewrite (final_split i H).
  apply range_earlier; rewrite ?iter_prefix_length by lia; lia.
Qed.

(** An entry that iteration [i] leaves at zero is zero at the end. *)
Lemma final_zero_stays (i r c : nat) :
  (S i < length cp)%nat ->
  entry (iter (prefix i) i) r c = 0 -> entry final r c = 0.
Proof.
  intros H E. rewrite (final_split i H).
  apply range_zero_stays; [| |exact E]; rewrite iter_prefix_length by lia; lia.
Qed.

End Loop.

(** ** The views of [preds] *)

Lemma nth_map2 {A B C : Type} (f : A -> B -> C) (da : A) (db : B) (d : C)
  (xs : list A) (ys : list B) (r : nat) :
  length xs = length ys ->
  nth r (map2 f xs ys) d
  = if (r <? length xs)%nat then f (nth r xs da) (nth r ys db) else d.
Proof.
  revert ys r. induction xs as [|x xs IH]; intros [|y ys] r Hl;
    try discriminate.
  - now destruct r.
  - destruct r as [|r]; [reflexivity|]. simpl in Hl. simpl nth.
    rewrite IH by lia. reflexivity.
Qed.

Lemma length_map2 {A B C : Type} (f : A -> B -> C) (xs : list A)
  (ys : list B) :
  length xs = length ys -> length (map2 f xs ys) = length xs.
Proof.
  revert ys. induction xs as [|x xs IH]; intros [|y ys] Hl;
    try discriminate; [reflexivity|].
  simpl. rewrite IH; [reflexivity | simpl in Hl; lia].
Qed.

Lemma put_cls_skipn (row cls : list Q) :
  length cls = length (skipn YOLO_CLASS_START row) ->
  skipn YOLO_CLASS_START (put_cls row cls) = cls.
Proof.
  unfold put_cls. intro H. rewrite length_skipn in H.
  rewrite skipn_app, length_firstn.
  destruct (Nat.le_gt_cases YOLO_CLASS_START (length row)) as [L|L].
  - rewrite Nat.min_l by exact L. rewrite Nat.sub_diag.
    rewrite skipn_all2 by (rewrite length_firstn; lia). reflexivity.
  - assert (cls = []) by (apply length_zero_iff_nil; lia). subst cls.
    rewrite skipn_all2 by (rewrite length_firstn; lia).
    now rewrite skipn_nil.
Qed.

Lemma put_cls_firstn (row cls : list Q) :
  length cls = length (skipn YOLO_CLASS_START row) ->
  firstn YOLO_CLASS_START (put_cls row cls) = firstn YOLO_CLASS_START row.
Proof.
  unfold put_cls. intro H. rewrite length_skipn in H.
  rewrite firstn_app, length_firstn, firstn_firstn, Nat.min_id.
  destruct (Nat.le_gt_cases YOLO_CLASS_START (length row)) as [L|L].
  - rewrite Nat.min_l by exact L. rewrite Nat.sub_diag. simpl.
    apply app_nil_r.
  - assert (cls = []) by (apply length_zero_iff_nil; lia). subst cls.
    rewrite firstn_nil. apply app_nil_r.
Qed.

Lemma put_cls_length (row cls : list Q) :
  length cls = length (skipn YOLO_CLASS_START row) ->
  length (put_cls row cls) = length row.
Proof.
  unfold put_cls. intro H. rewrite length_skipn in H.
  rewrite length_app, length_firstn. lia.
Qed.

Lemma put_cls_attrs (row cls : list Q) :
  length cls = length (skipn YOLO_CLASS_START row) ->
  slice YOLO_TX (S YOLO_TH) (put_cls row cls) = slice YOLO_TX (S YOLO_TH) row.
Proof.
  intro H. unfold slice. simpl skipn.
  replace (S YOLO_TH - YOLO_TX)%nat
    with (Nat.min (S YOLO_TH - YOLO_TX) YOLO_CLASS_START) by reflexivity.
  rewrite <- !firstn_firstn. now rewrite put_cls_firstn.
Qed.

Section Views.

Variable preds : tensor.
Variable cp : list (list Q).
Hypothesis Hshape : same_shape cp (class_probs_of preds).

Lemma class_probs_of_length :
  length (class_probs_of preds) = length (rows preds).
Proof. apply length_map. Qed.

Lemma bboxes_of_length : length (bboxes_of preds) = length (rows preds).
Proof. unfold bboxes_of, bbox_attrs_of. now rewrite !length_map. Qed.

Lemma bboxes_class_probs_length :
  length (bboxes_of preds) = length (class_probs_of preds).
Proof. now rewrite bboxes_of_length, class_probs_of_length. Qed.

Lemma cp_length : length (rows preds) = length cp.
Proof. destruct Hshape as [-> _]. symmetry. apply class_probs_of_length. Qed.

Lemma cp_row_length (r : nat) :
  length (nth r cp []) = length (skipn YOLO_CLASS_START (nth r (rows preds) [])).
Proof.
  destruct Hshape as [_ ->]. unfold class_probs_of.
  change (@nil Q) with (skipn YOLO_CLASS_START (@nil Q)) at 1.
  now rewrite map_nth.
Qed.

Lemma store_row (r : nat) :
  nth r (rows (store_class_probs preds cp)) []
  = put_cls (nth r (rows preds) []) (nth r cp []).
Proof.
  unfold store_class_probs. simpl.
  rewrite (nth_map2 _ [] []) by apply cp_length.
  destruct (r <? length (rows preds))%nat eqn:E; [reflexivity|].
  apply Nat.ltb_ge in E.
  rewrite !nth_overflow by (rewrite <- ?cp_length; exact E).
  reflexivity.
Qed.

Lemma store_length :
  length (rows (store_class_probs preds cp)) = length (rows preds).
Proof. apply length_map2, cp_length. Qed.

Lemma class_probs_of_store :
  class_probs_of (store_class_probs preds cp) = cp.
Proof.
  apply (nth_ext _ _ [] []).
  - unfold class_probs_of. rewrite length_map, store_length.
    apply cp_length.
  - intros r _. unfold class_probs_of at 1.
    change (@nil Q) with (skipn YOLO_CLASS_START (@nil Q)) at 1.
    rewrite map_nth, store_row. apply put_cls_skipn, cp_row_length.
Qed.

Lemma bboxes_of_store :
  bboxes_of (store_class_probs preds cp) = bboxes_of preds.
Proof.
  unfold bboxes_of. f_equal. apply (nth_ext _ _ [] []).
  - unfold bbox_attrs_of. rewrite !length_map. apply store_length.
  - intros r _. unfold bbox_attrs_of.
    change (@nil Q) with (slice YOLO_TX (S YOLO_TH) (@nil Q)).
    rewrite !map_nth, store_row. apply put_cls_attrs, cp_row_length.
Qed.

End Views.

Lemma put_cls_col (row cls : list Q) (k : nat) :
  length cls = length (skipn YOLO_CLASS_START row) ->
  col k (put_cls row cls)
  = if (k <? YOLO_CLASS_START)%nat then col k row
    else col (k - YOLO_CLASS_START) cls.
Proof.
  intro H. rewrite length_skipn in H. unfold col, put_cls.
  destruct (Nat.le_gt_cases YOLO_CLASS_START (length row)) as [L|L].
  - destruct (k <? YOLO_CLASS_START)%nat eqn:E.
    + apply Nat.ltb_lt in E.
      rewrite app_nth1 by (rewrite length_firstn; lia).
      rewrite nth_firstn. now apply Nat.ltb_lt in E as ->.
    + apply Nat.ltb_ge in E.
      rewrite app_nth2 by (rewrite length_firstn; lia).
      rewrite length_firstn, Nat.min_l by exact L. reflexivity.
  - assert (cls = []) by (apply length_zero_iff_nil; lia). subst cls.
    rewrite app_nil_r, firstn_all2 by lia.
    destruct (k <? YOLO_CLASS_START)%nat eqn:E; [reflexivity|].
    apply Nat.ltb_ge in E. rewrite nth_overflow by lia.
    now destruct (k - YOLO_CLASS_START)%nat.
Qed.

Lemma score_col (preds : tensor) (i c : nat) :
  score preds i c = col (YOLO_CLASS_START + c) (nth i (rows preds) []).
Proof.
  unfold score, entry, class_probs_of, col.
  change (@nil Q) with (skipn YOLO_CLASS_START (@nil Q)) at 1.
  rewrite map_nth. apply nth_skipn.
Qed.

(** ** [greedy_nms_inplace] as a whole *)

Section Greedy.

Variable preds : tensor.
Variable nms_thresh : Q.

Let bboxes := bboxes_of preds.
Let cp := class_probs_of preds.
Let final := nms_loop bboxes nms_thresh cp.

Lemma greedy_cases :
  ((ncols preds <= YOLO_TH)%nat /\
   greedy_nms_inplace preds nms_thresh = (IndexError, preds)) \/
  ((YOLO_TH < ncols preds)%nat /\
   greedy_nms_inplace preds nms_thresh
   = (Returned, store_class_probs preds final)).
Proof.
  unfold greedy_nms_inplace.
  destruct (Nat.leb _ YOLO_TH) eqn:E.
  - left. apply Nat.leb_le in E. unfold YOLO_TH, YOLO_TX in *.
    split; [lia | reflexivity].
  - right. apply Nat.leb_gt in E. unfold YOLO_TH, YOLO_TX in *.
    split; [lia | reflexivity].
Qed.

Lemma loop_same_shape : same_shape final cp.
Proof. apply final_same_shape, bboxes_class_probs_length. Qed.

Lemma suppressed_returned :
  (YOLO_TH < ncols preds)%nat ->
  suppressed preds nms_thresh = store_class_probs preds final.
Proof.
  intro H. unfold suppressed.
  destruct greedy_cases as [[L _]|[_ ->]]; [lia | reflexivity].
Qed.

Lemma suppressed_raised :
  (ncols preds <= YOLO_TH)%nat -> suppressed preds nms_thresh = preds.
Proof.
  intro H. unfold suppressed.
  destruct greedy_cases as [[_ ->]|[L _]]; [reflexivity | lia].
Qed.

Lemma suppressed_scores :
  (YOLO_TH < ncols preds)%nat ->
  class_probs_of (suppressed preds nms_thresh) = final.
Proof.
  intro H. rewrite suppressed_returned by exact H.
  apply class_probs_of_store, loop_same_shape.
Qed.

Lemma suppressed_only_zeroes (i c : nat) :
  score (suppressed preds nms_thresh) i c = score preds i c \/
  score (suppressed preds nms_thresh) i c = 0.
Proof.
  destruct (Nat.le_gt_cases (ncols preds) YOLO_TH) as [L|L].
  - left. now rewrite suppressed_raised.
  - unfold score. rewrite suppressed_scores by exact L.
    apply final_only_zeroes, bboxes_class_probs_length.
Qed.

Lemma suppressed_ncols : ncols (suppressed preds nms_thresh) = ncols preds.
Proof.
  destruct (Nat.le_gt_cases (ncols preds) YOLO_TH) as [L|L].
  - now rewrite suppressed_raised.
  - now rewrite suppressed_returned.
Qed.

Lemma suppressed_row (r : nat) :
  exists cls,
    length cls = length (skipn YOLO_CLASS_START (nth r (rows preds) [])) /\
    nth r (rows (suppressed preds nms_thresh)) []
    = put_cls (nth r (rows preds) []) cls.
Proof.
  destruct (Nat.le_gt_cases (ncols preds) YOLO_TH) as [L|L].
  - rewrite suppressed_raised by exact L.
    exists (skipn YOLO_CLASS_START (nth r (rows preds) [])).
    split; [reflexivity|]. unfold put_cls. now rewrite firstn_skipn.
  - rewrite suppressed_returned by exact L. exists (nth r final []).
    split; [apply cp_row_length | apply store_row]; apply loop_same_shape.
Qed.

Lemma suppressed_length :
  length (rows (suppressed preds nms_thresh)) = length (rows preds).
Proof.
  destruct (Nat.le_gt_cases (ncols preds) YOLO_TH) as [L|L].
  - now rewrite suppressed_raised.
  - rewrite suppressed_returned by exact L.
    apply store_length, loop_same_shape.
Qed.

Lemma suppressed_attrs :
  bbox_attrs_of (suppressed preds nms_thresh) = bbox_attrs_of preds.
Proof.
  apply (nth_ext _ _ [] []).
  - unfold bbox_attrs_of. rewrite !length_map. apply suppressed_length.
  - intros r _. unfold bbox_attrs_of.
    change (@nil Q) with (slice YOLO_TX (S YOLO_TH) (@nil Q)).
    rewrite !map_nth. destruct (suppressed_row r) as (cls & Hc & ->).
    now apply put_cls_attrs.
Qed.

End Greedy.

(** C4.  One call never increases a class score.  The class scores of a
    prediction buffer are confidences (objectness times class probability),
    so none is negative: every class score that the call leaves is the
    score it found or 0, and so it is at most the score it found. *)
Theorem suppression_monotonic (preds : tensor) (nms_thresh : Q) (i c : nat) :
  (score (suppressed preds nms_thresh) i c = score preds i c \/
   score (suppressed preds nms_thresh) i c = 0) /\
  (0 <= score preds i c ->
   score (suppressed preds nms_thresh) i c <= score preds i c).
Proof.
  pose proof (suppressed_only_zeroes preds nms_thresh i c) as H.
  split; [exact H|]. intro Hs.
  destruct H as [-> | ->]; [apply Qle_refl | exact Hs].
Qed.

(** C6.  One call keeps the shape of the buffer and the fields before the
    class scores, so [(tx, ty, tw, th)] of every row; an entry that differs
    is a class score, and it is 0 after the call. *)
Theorem suppression_frame (preds : tensor) (nms_thresh : Q) :
  let out := suppressed preds nms_thresh in
  ncols out = ncols preds /\
  length (rows out) = length (rows preds) /\
  (forall r, length (nth r (rows out) []) = length (nth r (rows preds) [])) /\
  bbox_attrs_of out = bbox_attrs_of preds /\
  (forall r k, (k < YOLO_CLASS_START)%nat ->
     col k (nth r (rows out) []) = col k (nth r (rows preds) [])) /\
  (forall r k,
     col k (nth r (rows out) []) = col k (nth r (rows preds) []) \/
     ((YOLO_CLASS_START <= k)%nat /\ col k (nth r (rows out) []) = 0)).
Proof.
  intro out. subst out.
  split; [apply suppressed_ncols|].
  split; [apply suppressed_length|].
  split; [|split; [apply suppressed_attrs|split]].
  - intro r. destruct (suppressed_row preds nms_thresh r) as (cls & Hc & ->).
    now apply put_cls_length.
  - intros r k Hk.
    destruct (suppressed_row preds nms_thresh r) as (cls & Hc & ->).
    rewrite put_cls_col by exact Hc. now apply Nat.ltb_lt in Hk as ->.
  - intros r k. destruct (Nat.lt_ge_cases k YOLO_CLASS_START) as [Hk|Hk].
    + left. destruct (suppressed_row preds nms_thresh r) as (cls & Hc & ->).
      rewrite put_cls_col by exact Hc. now apply Nat.ltb_lt in Hk as ->.
    + replace k with (YOLO_CLASS_START + (k - YOLO_CLASS_START))%nat by lia.
      rewrite <- !score_col.
      destruct (suppressed_only_zeroes preds nms_thresh r
                  (k - YOLO_CLASS_START)) as [H|H]; [now left|].
      right. split; [lia | exact H].
Qed.

(** ** The comparison of one pair *)

Lemma rectangular_width (preds : tensor) :
  rectangular preds = true -> width (n_classes preds) (class_probs_of preds).
Proof.
  unfold rectangular, width, n_classes, class_probs_of. intros H r Hr.
  rewrite length_map in Hr.
  change (@nil Q) with (skipn YOLO_CLASS_START (@nil Q)).
  rewrite map_nth, length_skipn.
  rewrite forallb_forall in H.
  specialize (H (nth r (rows preds) []) (nth_In _ _ Hr)).
  apply Nat.eqb_eq in H. now rewrite H.
Qed.

Lemma fle_not_fgt (v : fval) (t : Q) : fle v t = true -> fgt v t = false.
Proof.
  destruct v as [q| | |]; simpl; try congruence.
  intro H. apply Qle_bool_iff in H. now apply Qltb_ge.
Qed.

Section Pair.

Variable preds : tensor.
Variable nms_thresh : Q.
Variables i j : nat.
Hypothesis Hij : (i < j < n_boxes preds)%nat.

Let bboxes := bboxes_of preds.
Let before := scores_before preds nms_thresh i.
Let after := scores_after preds nms_thresh i.

Lemma before_length : length before = n_boxes preds.
Proof.
  unfold before, scores_before, n_boxes in *.
  rewrite prefix_length.
  - apply class_probs_of_length.
  - apply bboxes_class_probs_length.
  - rewrite class_probs_of_length. lia.
Qed.

Lemma before_bboxes : length bboxes = length before.
Proof. rewrite before_length. apply bboxes_of_length. Qed.

Lemma before_width (r : nat) :
  rectangular preds = true -> (r < n_boxes preds)%nat ->
  length (nth r before []) = n_classes preds.
Proof.
  intros Hr Hlt.
  apply same_shape_width with (t := class_probs_of preds).
  - apply prefix_same_shape; [apply bboxes_class_probs_length|].
    rewrite class_probs_of_length. unfold n_boxes in Hij. lia.
  - now apply rectangular_width.
  - now rewrite before_length.
Qed.


Lemma after_zero_final (r c : nat) :
  (YOLO_TH < ncols preds)%nat ->
  entry after r c = 0 -> score (suppressed preds nms_thresh) r c = 0.
Proof.
  intros H E. unfold score. rewrite suppressed_scores by exact H.
  apply final_zero_stays with (i := i); [apply bboxes_class_probs_length | |].
  - rewrite class_probs_of_length. unfold n_boxes in Hij. lia.
  - exact E.
Qed.

End Pair.


(** C5.  For boxes [i < j] whose IOU is at most the threshold, the pair is
    outside [thresh_mask]: iteration [i] leaves row [j] as it is, and if it
    changes a score of box [i], another later box, whose IOU with box [i]
    exceeds the threshold, out-scores box [i] for that class. *)
Theorem no_suppression_below_threshold (preds : tensor) (nms_thresh : Q)
  (i j : nat) :
  (i < j < n_boxes preds)%nat ->
  fle (iou_of (bboxes_of preds) i j) nms_thresh = true ->
  let before := scores_before preds nms_thresh i in
  let after := scores_after preds nms_thresh i in
  nth (j - S i) (thresh_mask (bboxes_of preds) nms_thresh i) false = false /\
  nth j after [] = nth j before [] /\
  forall c, entry after i c <> entry before i c ->
    exists j', (i < j' < n_boxes preds)%nat /\ j' <> j /\
      overlaps (bboxes_of preds) nms_thresh i j' = true /\
      entry before i c < entry before j' c.
Proof.
  intros Hij Hle before after.
  assert (Hov : overlaps (bboxes_of preds) nms_thresh i j = false)
    by (now apply fle_not_fgt).
  pose proof (before_length preds nms_thresh i j Hij) as Hl.
  pose proof (before_bboxes preds nms_thresh i j Hij) as Hb.
  assert (Hi : (i < length before)%nat) by (unfold before; lia).
  split; [|split].
  - rewrite thresh_mask_nth.
    replace (S i + (j - S i))%nat with j by lia.
    rewrite Hov. apply andb_false_r.
  - apply (iter_later_row_kept _ _ _ _ Hi); [lia | exact Hov].
  - intros c Hne.
    destruct (iter_own_cases (bboxes_of preds) nms_thresh before i Hi Hb c)
      as [E|[_ (j' & Hj' & Ho' & _ & _ & Hlt)]]; [contradiction|].
    exists j'. repeat split; try (unfold before in Hj'; lia);
      [congruence | exact Ho' | exact Hlt].
Qed.

(** C10.  Iteration [i] compares the scores of box [i] as they are when it
    starts with all later boxes that overlap it.  When a later box [j1]
    out-scores box [i] for class [c] and another later box [j2] holds a
    score that is not above that of box [i], the iteration zeroes both
    [score[i][c]] and [score[j2][c]], wherever [j1] and [j2] stand, and
    leaves [score[j1][c]]; the zeroes are in the buffer the call leaves. *)
Theorem snapshot_within_iteration (preds : tensor) (nms_thresh : Q)
  (i j1 j2 c : nat) :
  rectangular preds = true ->
  (i < j1 < n_boxes preds)%nat -> (i < j2 < n_boxes preds)%nat ->
  (c < n_classes preds)%nat ->
  overlaps (bboxes_of preds) nms_thresh i j1 = true ->
  overlaps (bboxes_of preds) nms_thresh i j2 = true ->
  let before := scores_before preds nms_thresh i in
  let after := scores_after preds nms_thresh i in
  let out := suppressed preds nms_thresh in
  entry before i c < entry before j1 c ->
  entry before j2 c <= entry before i c ->
  entry after i c = 0 /\ entry after j2 c = 0 /\
  entry after j1 c = entry before j1 c /\
  score out i c = 0 /\ score out j2 c = 0.
Proof.
  intros Hrect H1 H2 Hc Ho1 Ho2 before after out Hlt Hle.
  assert (Hcols : (YOLO_TH < ncols preds)%nat)
    by (unfold n_classes, YOLO_CLASS_START, YOLO_TH in *; lia).
  pose proof (before_length preds nms_thresh i j1 H1) as Hl.
  pose proof (before_bboxes preds nms_thresh i j1 H1) as Hb.
  assert (Hi : (i < length before)%nat) by (unfold before; lia).
  assert (Hw : forall r, (r < n_boxes preds)%nat ->
                         (c < length (nth r before []))%nat).
  { intros r Hr. unfold before.
    rewrite (before_width preds nms_thresh i j1 H1); assumption. }
  assert (Ei : entry after i c = 0).
  { apply (iter_own_zeroed _ _ _ _ Hi Hb j1 c); try assumption;
      try (apply Hw; lia). unfold before; lia. }
  assert (Ej : entry after j2 c = 0).
  { apply (iter_later_zeroed _ _ _ _ Hi Hb j2 c); try assumption;
      try (apply Hw; lia); [unfold before; lia|].
    now apply Qle_not_lt. }
  repeat split; try assumption.
  - destruct (iter_later_cases (bboxes_of preds) nms_thresh before i Hi Hb
                j1 c (proj1 H1))
      as [[E _]|(_ & _ & [[E _]|(_ & _ & _ & Hge)])].
    + unfold after, scores_after, entry. fold before. now rewrite E.
    + exact E.
    + exfalso. apply (Qlt_not_le _ _ Hlt). exact Hge.
  - now apply (after_zero_final preds nms_thresh i j1 H1).
  - now apply (after_zero_final preds nms_thresh i j1 H1).
Qed.

(** ** A second pass *)

Lemma entry_overflow (t : list (list Q)) (r c : nat) :
  (length (nth r t []) <= c)%nat -> entry t r c = 0.
Proof. intro H. unfold entry, col. now apply nth_overflow. Qed.

(** Two tables of one shape with the same entries are the same table. *)
Lemma table_ext (s t : list (list Q)) :
  same_shape s t -> (forall r c, entry s r c = entry t r c) -> s = t.
Proof.
  intros [Hl Hr] He. apply (nth_ext _ _ [] []); [exact Hl|].
  intros r _. apply (nth_ext _ _ 0 0); [apply Hr|].
  intros c _. apply He.
Qed.

Section SecondPass.

Variable bboxes : list (list Q).
Variable nms_thresh : Q.

Let iter := nms_iter bboxes nms_thresh.
Let range := nms_range bboxes nms_thresh.

Lemma range_nonneg (k n : nat) (s : list (list Q)) :
  length bboxes = length s -> (k + n <= length s)%nat ->
  scores_nonneg s -> scores_nonneg (range k n s).
Proof.
  intros Hb H Hs r c.
  destruct (range_only_zeroes bboxes nms_thresh k n s r c Hb H)
    as [E|E]; fold range in E; rewrite E; [apply Hs | apply Qle_refl].
Qed.

(** The pass settles every pair of boxes that overlap. *)
Lemma loop_settled (C : nat) (cp : list (list Q)) :
  length bboxes = length cp -> width C cp -> scores_nonneg cp ->
  settled bboxes nms_thresh (nms_loop bboxes nms_thresh cp).
Proof.
  intros Hlen Hw Hpos i j c Hij Hov.
  pose proof (final_same_shape bboxes nms_thresh cp Hlen) as Hs.
  destruct Hs as [Hl Hr]. rewrite Hl in Hij.
  destruct (Nat.le_gt_cases C c) as [Hc|Hc].
  { left. apply entry_overflow. rewrite Hr, Hw; lia. }
  set (pre := nms_prefix bboxes nms_thresh cp i).
  assert (Hpre : same_shape pre cp)
    by (apply prefix_same_shape; [exact Hlen | lia]).
  assert (Hwp : width C pre) by (now apply same_shape_width with cp).
  assert (Hpp : scores_nonneg pre)
    by (apply range_nonneg; [exact Hlen | lia | exact Hpos]).
  destruct Hpre as [Hpl _].
  assert (Hi : (i < length pre)%nat) by lia.
  assert (Hb : length bboxes = length pre) by congruence.
  assert (Hci : (c < length (nth i pre []))%nat) by (rewrite Hwp; lia).
  assert (Hcj : (c < length (nth j pre []))%nat) by (rewrite Hwp; lia).
  assert (HS : (S i < length cp)%nat) by lia.
  destruct (Qlt_le_dec (entry pre i c) (entry pre j c)) as [Hlt|Hge].
  - assert (Ei : entry (nms_loop bboxes nms_thresh cp) i c = 0).
    { apply final_zero_stays with (i := i); [exact Hlen | exact HS|].
      apply (iter_own_zeroed _ _ _ _ Hi Hb j c); try assumption. lia. }
    assert (Ej : entry (iter pre i) j c = entry pre j c).
    { destruct (iter_later_cases bboxes nms_thresh pre i Hi Hb j c
                  (proj1 Hij))
        as [[E _]|(_ & _ & [[E _]|(_ & _ & _ & Hge)])].
      - unfold entry. fold iter in E. now rewrite E.
      - exact E.
      - exfalso. apply (Qlt_not_le _ _ Hlt). exact Hge. }
    rewrite (final_split bboxes nms_thresh cp Hlen i HS) in Ei |- *.
    fold pre iter range in Ei |- *.
    destruct (range_only_zeroes bboxes nms_thresh (S i)
                (length cp - 1 - S i) (iter pre i) j c) as [E|E].
    + unfold iter. rewrite nms_iter_length by exact Hi. congruence.
    + unfold iter. rewrite nms_iter_length by exact Hi. lia.
    + right. split; [exact Ei|]. fold range in E. rewrite E, Ej.
      apply Qle_lt_trans with (entry pre i c); [apply Hpp | exact Hlt].
    + left. exact E.
  - left. apply final_zero_stays with (i := i); [exact Hlen | exact HS|].
    apply (iter_later_zeroed _ _ _ _ Hi Hb j c); try assumption; [lia|].
    now apply Qle_not_lt.
Qed.

(** On a settled table of confidences an iteration writes zeroes over
    zeroes only. *)
Lemma iter_fixed (s : list (list Q)) (i : nat) :
  (i < length s)%nat -> length bboxes = length s ->
  settled bboxes nms_thresh s -> scores_nonneg s ->
  iter s i = s.
Proof.
  intros Hi Hb Hset Hpos.
  apply table_ext; [now apply iter_same_shape|]. intros r c.
  destruct (Nat.lt_trichotomy r i) as [Hr|[->|Hr]].
  - unfold entry, iter. now rewrite nms_iter_earlier by assumption.
  - destruct (iter_own_cases bboxes nms_thresh s i Hi Hb c)
      as [E|[E (j & Hj & Ho & _ & _ & Hlt)]];
      fold iter in E; rewrite E; [reflexivity|].
    destruct (Hset i j c Hj Ho) as [Z|[Z _]]; [|now rewrite Z].
    exfalso. rewrite Z in Hlt.
    apply (Qlt_not_le _ _ Hlt). apply Hpos.
  - destruct (iter_later_cases bboxes nms_thresh s i Hi Hb r c Hr)
      as [[E _]|(Ho & Hlt & [[E _]|(E & _ & _ & Hge)])];
      fold iter in E.
    + unfold entry. now rewrite E.
    + exact E.
    + rewrite E.
      destruct (Hset i r c (conj Hr Hlt) Ho) as [Z|[Z Hp]];
        [now rewrite Z|].
      exfalso. rewrite Z in Hge. apply (Qlt_not_le _ _ Hp). exact Hge.
Qed.

Lemma range_fixed (k n : nat) (s : list (list Q)) :
  length bboxes = length s -> (k + n <= length s)%nat ->
  settled bboxes nms_thresh s -> scores_nonneg s ->
  range k n s = s.
Proof.
  intros Hb H Hset Hpos. induction n as [|n IH]; [reflexivity|].
  unfold range. rewrite nms_range_S. fold range iter.
  rewrite IH by lia. apply iter_fixed; try assumption. lia.
Qed.

(** A second pass over the scores that a pass over confidences leaves
    changes nothing. *)
Lemma loop_idempotent (C : nat) (cp : list (list Q)) :
  length bboxes = length cp -> width C cp -> scores_nonneg cp ->
  nms_loop bboxes nms_thresh (nms_loop bboxes nms_thresh cp)
  = nms_loop bboxes nms_thresh cp.
Proof.
  intros Hlen Hw Hpos.
  pose proof (final_same_shape bboxes nms_thresh cp Hlen) as [Hl _].
  unfold nms_loop at 1. unfold nms_prefix.
  apply range_fixed.
  - congruence.
  - lia.
  - now apply loop_settled with C.
  - unfold nms_loop, nms_prefix. apply range_nonneg; [exact Hlen | lia|].
    exact Hpos.
Qed.

End SecondPass.

(** Storing through the view what the view reads changes nothing. *)
Lemma store_own (t : tensor) : store_class_probs t (class_probs_of t) = t.
Proof.
  destruct t as [n rs]. unfold store_class_probs, class_probs_of. simpl.
  f_equal. induction rs as [|r rs IH]; simpl; [reflexivity|].
  rewrite IH. unfold put_cls. now rewrite firstn_skipn.
Qed.

(** C3.  Suppression is idempotent.  The class scores of a prediction
    buffer are confidences (objectness times class probability), so none is
    negative: a second call with the same threshold ends as the first one
    and leaves exactly the buffer the first call left. *)
Theorem suppression_idempotent (preds : tensor) (nms_thresh : Q) :
  rectangular preds = true ->
  (forall i c, 0 <= score preds i c) ->
  greedy_nms_inplace (suppressed preds nms_thresh) nms_thresh
  = (fst (greedy_nms_inplace preds nms_thresh),
     suppressed preds nms_thresh).
Proof.
  intros Hrect Hpos.
  destruct (greedy_cases preds nms_thresh) as [[L E]|[L E]].
  - unfold suppressed. rewrite E. simpl. exact E.
  - pose proof (loop_same_shape preds nms_thresh) as Hs.
    unfold suppressed. rewrite E. simpl.
    set (once := store_class_probs preds _).
    destruct (greedy_cases once nms_thresh) as [[L' _]|[_ ->]];
      [simpl in L'; lia|].
    f_equal. unfold once at 2 3.
    rewrite bboxes_of_store, class_probs_of_store by exact Hs.
    rewrite loop_idempotent with (C := n_classes preds).
    + replace (nms_loop _ _ _) with (class_probs_of once)
        by (apply class_probs_of_store; exact Hs).
      apply store_own.
    + apply bboxes_class_probs_length.
    + now apply rectangular_width.
    + exact Hpos.
Qed.


Lemma no_suppression_below_threshold_witness :
  nth (1 - 1) (thresh_mask (bboxes_of far_boxes) (1#2) 0) false = false /\
  nth 1 (scores_after far_boxes (1#2) 0) []
  = nth 1 (scores_before far_boxes (1#2) 0) [] /\
  forall c,
    entry (scores_after far_boxes (1#2) 0) 0 c
    <> entry (scores_before far_boxes (1#2) 0) 0 c ->
    exists j', (0 < j' < n_boxes far_boxes)%nat /\ j' <> 1%nat /\
      overlaps (bboxes_of far_boxes) (1#2) 0 j' = true /\
      entry (scores_before far_boxes (1#2) 0) 0 c
      < entry (scores_before far_boxes (1#2) 0) j' c.
Proof.
  apply (no_suppression_below_threshold far_boxes (1#2) 0 1).
  - cbv. lia.
  - reflexivity.
Defined.

Lemma snapshot_within_iteration_witness :
  entry (scores_after three_boxes (1#2) 0) 0 0 = 0 /\
  entry (scores_after three_boxes (1#2) 0) 2 0 = 0 /\
  entry (scores_after three_boxes (1#2) 0) 1 0
  = entry (scores_before three_boxes (1#2) 0) 1 0 /\
  score (suppressed three_boxes (1#2)) 0 0 = 0 /\
  score (suppressed three_boxes (1#2)) 2 0 = 0.
Proof.
  apply (snapshot_within_iteration three_boxes (1#2) 0 1 2 0).
  - reflexivity.
  - cbv. lia.
  - cbv. lia.
  - cbv. lia.
  - reflexivity.
  - reflexivity.
  - reflexivity.
  - vm_compute. discriminate.
Defined.

Lemma suppression_idempotent_witness :
  greedy_nms_inplace (suppressed two_boxes (1#2)) (1#2)
  = (fst (greedy_nms_inplace two_boxes (1#2)), suppressed two_boxes (1#2)).
Proof.
  apply (suppression_idempotent two_boxes (1#2)).
  - reflexivity.
  - intros i c. rewrite score_col.
    destruct i as [|[|[|i]]];
      (destruct c as [|[|[|c]]]; vm_compute; discriminate).
Defined.

Lemma suppression_monotonic_witness :
  (score (suppressed two_boxes (1#2)) 1 0 = score two_boxes 1 0 \/
   score (suppressed two_boxes (1#2)) 1 0 = 0) /\
  score (suppressed two_boxes (1#2)) 1 0 <= score two_boxes 1 0.
Proof.
  destruct (suppression_monotonic two_boxes (1#2) 1 0) as [H1 H2].
  split; [exact H1|]. apply H2. vm_compute. discriminate.
Defined.

(** ** [run_nms_inplace] *)

(** C7.  When the kind of the layer is not the greedy kind, the call
    returns without an error and leaves the buffer as it is. *)
Theorem dispatcher_other_kind_noop (GREEDY_NMS : string) (NMS_THRESHOLD : Q)
  (preds : tensor) (layer : yolo_layer) :
  nms_kind layer <> GREEDY_NMS ->
  run_nms_inplace GREEDY_NMS NMS_THRESHOLD preds layer = (Returned, preds).
Proof.
  intro H. unfold run_nms_inplace.
  now apply String.eqb_neq in H as ->.
Qed.

Lemma dispatcher_other_kind_noop_witness :
  run_nms_inplace "greedynms" (1#2) two_boxes (mkLayer "diounms" (1#2))
  = (Returned, two_boxes).
Proof.
  apply (dispatcher_other_kind_noop "greedynms" (1#2) two_boxes
           (mkLayer "diounms" (1#2))).
  discriminate.
Defined.

(** C2, as the code has it.  When the kind of the layer is the greedy kind,
    the call is [greedy_nms_inplace(preds)] with the default threshold
    [NMS_THRESHOLD]; no threshold of the layer takes part. *)
Theorem dispatcher_greedy_default_threshold (GREEDY_NMS : string)
  (NMS_THRESHOLD : Q) (preds : tensor) (layer : yolo_layer) :
  nms_kind layer = GREEDY_NMS ->
  run_nms_inplace GREEDY_NMS NMS_THRESHOLD preds layer
  = greedy_nms_inplace preds NMS_THRESHOLD /\
  forall t : Q,
    run_nms_inplace GREEDY_NMS NMS_THRESHOLD preds
      (mkLayer (nms_kind layer) t)
    = run_nms_inplace GREEDY_NMS NMS_THRESHOLD preds layer.
Proof.
  intro H. unfold run_nms_inplace. simpl. rewrite H, String.eqb_refl.
  split; [reflexivity | intro t; reflexivity].
Qed.

Lemma dispatcher_greedy_default_threshold_witness :
  run_nms_inplace "greedynms" (1#2) two_boxes (mkLayer "greedynms" (9#10))
  = greedy_nms_inplace two_boxes (1#2) /\
  forall t : Q,
    run_nms_inplace "greedynms" (1#2) two_boxes (mkLayer "greedynms" t)
    = run_nms_inplace "greedynms" (1#2) two_boxes
        (mkLayer "greedynms" (9#10)).
Proof.
  apply (dispatcher_greedy_default_threshold "greedynms" (1#2) two_boxes
           (mkLayer "greedynms" (9#10))).
  reflexivity.
Defined.

(** On twice the same box the pass depends on the threshold alone. *)
Lemma same_boxes_suppressed (t : Q) :
  suppressed same_boxes t
  = if Qltb t 1
    then mkTensor 6 [ [0; 0; 2; 2; 1; 9#10]; [0; 0; 2; 2; 1; 0] ]
    else same_boxes.
Proof.
  assert (Hm : thresh_mask (bboxes_of same_boxes) t 0
               = [Qltb t (262144 # 262144)]) by reflexivity.
  assert (Ht : Qltb t (262144 # 262144) = Qltb t 1).
  { destruct (Qltb t 1) eqn:E.
    - apply Qltb_lt. apply Qltb_lt in E.
      apply Qlt_le_trans with 1; [exact E | discriminate].
    - apply Qltb_ge. apply Qltb_ge in E.
      apply Qle_trans with 1; [discriminate | exact E]. }
  unfold suppressed, greedy_nms_inplace, nms_loop, nms_prefix, nms_range.
  change (length (bboxes_of same_boxes) - 1)%nat with 1%nat.
  cbn [seq fold_left fst snd ncols]. unfold nms_iter.
  rewrite Hm, Ht. destruct (Qltb t 1); reflexivity.
Qed.

(** C2, as the spec has it, fails whatever the value of [NMS_THRESHOLD]:
    a layer of the greedy kind can carry a threshold for which
    [greedy_nms_inplace] leaves another buffer. *)
Lemma dispatcher_layer_threshold_counterexample :
  ~ exists NMS_THRESHOLD : Q,
      forall (GREEDY_NMS : string) (preds : tensor) (layer : yolo_layer),
        nms_kind layer = GREEDY_NMS ->
        run_nms_inplace GREEDY_NMS NMS_THRESHOLD preds layer
        = greedy_nms_inplace preds (threshold layer).
Proof.
  intros [T H].
  destruct (Qltb T 1) eqn:E.
  - specialize (H "greedynms"%string same_boxes (mkLayer "greedynms" 1)
                  eq_refl).
    apply (f_equal snd) in H. unfold run_nms_inplace in H. simpl in H.
    change (suppressed same_boxes T = suppressed same_boxes 1) in H.
    rewrite !same_boxes_suppressed, E in H. discriminate H.
  - specialize (H "greedynms"%string same_boxes (mkLayer "greedynms" 0)
                  eq_refl).
    apply (f_equal snd) in H. unfold run_nms_inplace in H. simpl in H.
    change (suppressed same_boxes T = suppressed same_boxes 0) in H.
    rewrite !same_boxes_suppressed, E in H. discriminate H.
Qed.

(** ** Scenarios *)

(** A single box: there is no pair, the buffer stays as it is. *)
Example single_box_unchanged :
  greedy_nms_inplace (mkTensor 7 [ [0; 0; 10; 10; 1; 9#10; 3#10] ]) (1#2)
  = (Returned, mkTensor 7 [ [0; 0; 10; 10; 1; 9#10; 3#10] ]).
Proof. reflexivity. Qed.

(** Two boxes above the threshold: box 0 wins class 0 and the tie of
    class 1. *)
Example two_boxes_suppressed :
  greedy_nms_inplace two_boxes (1#2)
  = (Returned,
     mkTensor 7 [ [0; 0; 10; 10; 1; 9#10; 3#10];
                  [2; 0; 10; 10; 1; 0; 0] ]).
Proof. reflexivity. Qed.

(** Two boxes below the threshold stay as they are. *)
Example far_boxes_unchanged :
  greedy_nms_inplace far_boxes (1#2) = (Returned, far_boxes).
Proof. reflexivity. Qed.

(** Box 2 loses to box 0, which itself loses to box 1; box 1 and box 2 do
    not overlap. *)
Example three_boxes_suppressed :
  overlaps (bboxes_of three_boxes) (1#2) 1 2 = false /\
  greedy_nms_inplace three_boxes (1#2)
  = (Returned,
     mkTensor 6 [ [0; 0; 10; 10; 1; 0];
                  [2; 0; 10; 10; 1; 9#10];
                  [-2; 0; 10; 10; 1; 0] ]).
Proof. split; reflexivity. Qed.

(** A buffer with fewer than four columns: the read of [YOLO_TH] raises. *)
Example narrow_buffer_raises :
  greedy_nms_inplace (mkTensor 3 [ [1; 2; 3] ]) (1#2)
  = (IndexError, mkTensor 3 [ [1; 2; 3] ]).
Proof. reflexivity. Qed.

(** * Further properties of [utilities/nms.py] *)

(** ** Geometry *)

Lemma Qltb_compat (a a' b b' : Q) :
  a == a' -> b == b' -> Qltb a b = Qltb a' b'.
Proof. intros Ea Eb. unfold Qltb. now rewrite Ea, Eb. Qed.

Lemma fdiv_mask_compat (x x' y y' t : Q) :
  x == x' -> y == y' -> fgt (fdiv x y) t = fgt (fdiv x' y') t.
Proof.
  intros Ex Ey. unfold fdiv.
  assert (E1 : Qeq_bool y 0 = Qeq_bool y' 0) by (now rewrite Ey).
  assert (E2 : Qeq_bool x 0 = Qeq_bool x' 0) by (now rewrite Ex).
  rewrite E1, E2, (Qltb_compat 0 0 x x' (Qeq_refl 0) Ex).
  destruct (Qeq_bool y' 0); [reflexivity|].
  simpl. apply Qltb_compat; [reflexivity | now rewrite Ex, Ey].
Qed.

(** X2.  Two boxes that are apart on one axis have an intersection area of
    0: their IOU is 0, or nan when both areas are 0, and it exceeds no
    threshold that is not negative. *)
Theorem bbox_iou_disjoint (a b : list Q) (t : Q) :
  col BBOX_X2 a <= col BBOX_X1 b \/ col BBOX_X2 b <= col BBOX_X1 a \/
  col BBOX_Y2 a <= col BBOX_Y1 b \/ col BBOX_Y2 b <= col BBOX_Y1 a ->
  0 <= t ->
  interArea a b == 0 /\
  (bbox_iou1 a b = NaN \/ exists q, bbox_iou1 a b = Fin q /\ q == 0) /\
  fgt (bbox_iou1 a b) t = false.
Proof.
  intros H Ht.
  assert (Ei : interArea a b == 0).
  { unfold interArea. destruct H as [H|[H|[H|H]]].
    - rewrite inter_w_disjoint by (now left). ring.
    - rewrite inter_w_disjoint by (now right). ring.
    - rewrite inter_h_disjoint by (now left). ring.
    - rewrite inter_h_disjoint by (now right). ring. }
  split; [exact Ei|]. unfold bbox_iou1, fdiv.
  destruct (Qeq_bool (unionArea a b) 0) eqn:Eu.
  - apply Qeq_bool_iff in Ei. rewrite Ei. split; [now left | reflexivity].
  - assert (Eq : interArea a b / unionArea a b == 0)
      by (rewrite Ei; unfold Qdiv; ring).
    split.
    + right. eexists. split; [reflexivity | exact Eq].
    + simpl. apply Qltb_ge. now rewrite Eq.
Qed.

Lemma bbox_iou_disjoint_witness :
  fgt (bbox_iou1 [0; 0; 10; 10] [10; 0; 20; 10]) (1#2) = false.
Proof.
  apply (bbox_iou_disjoint [0; 0; 10; 10] [10; 0; 20; 10] (1#2)).
  - left. vm_compute. discriminate.
  - vm_compute. discriminate.
Defined.

(** X4.  The IOU does not depend on the origin of the coordinates: moving
    both boxes by [(dx, dy)] changes no area, and no entry of
    [thresh_mask]. *)
Theorem bbox_iou_translation (ax1 ay1 ax2 ay2 bx1 by1 bx2 by2 dx dy t : Q) :
  let a := [ax1; ay1; ax2; ay2] in
  let b := [bx1; by1; bx2; by2] in
  let a' := [ax1 + dx; ay1 + dy; ax2 + dx; ay2 + dy] in
  let b' := [bx1 + dx; by1 + dy; bx2 + dx; by2 + dy] in
  interArea a' b' == interArea a b /\
  unionArea a' b' == unionArea a b /\
  fgt (bbox_iou1 a' b') t = fgt (bbox_iou1 a b) t.
Proof.
  intros a b a' b'.
  assert (Ew : inter_w a' b' == inter_w a b).
  { unfold inter_w, a', b', a, b, col. simpl. apply clamp_min_0_compat.
    rewrite Q.plus_max_distr_r, Q.plus_min_distr_r. ring. }
  assert (Eh : inter_h a' b' == inter_h a b).
  { unfold inter_h, a', b', a, b, col. simpl. apply clamp_min_0_compat.
    rewrite Q.plus_max_distr_r, Q.plus_min_distr_r. ring. }
  assert (Ei : interArea a' b' == interArea a b)
    by (unfold interArea; now rewrite Ew, Eh).
  assert (Eu : unionArea a' b' == unionArea a b).
  { unfold unionArea. rewrite Ei.
    unfold bbox_area, a', b', a, b, col. simpl. ring. }
  split; [exact Ei|]. split; [exact Eu|].
  unfold bbox_iou1. now apply fdiv_mask_compat.
Qed.

(** ** What one call guarantees *)

Section Postcondition.

Variable bboxes : list (list Q).
Variable nms_thresh : Q.
Variable cp : list (list Q).
Hypothesis Hlen : length bboxes = length cp.

Let iter := nms_iter bboxes nms_thresh.
Let ov := overlaps bboxes nms_thresh.
Let final := nms_loop bboxes nms_thresh cp.

(** Of two boxes that overlap, one holds 0 for each class at the end. *)
Lemma loop_pair_zero (C : nat) (i j c : nat) :
  width C cp -> (i < j < length cp)%nat -> ov i j = true ->
  entry final i c = 0 \/ entry final j c = 0.
Proof.
  intros Hw Hij Hov.
  pose proof (final_same_shape bboxes nms_thresh cp Hlen) as [Hl Hr].
  destruct (Nat.le_gt_cases C c) as [Hc|Hc].
  { left. apply entry_overflow. unfold final. rewrite Hr, Hw; lia. }
  set (pre := nms_prefix bboxes nms_thresh cp i).
  assert (Hpre : same_shape pre cp)
    by (apply prefix_same_shape; [exact Hlen | lia]).
  assert (Hwp : width C pre) by (now apply same_shape_width with cp).
  destruct Hpre as [Hpl _].
  assert (Hi : (i < length pre)%nat) by lia.
  assert (Hb : length bboxes = length pre) by congruence.
  assert (Hci : (c < length (nth i pre []))%nat) by (rewrite Hwp; lia).
  assert (Hcj : (c < length (nth j pre []))%nat) by (rewrite Hwp; lia).
  assert (HS : (S i < length cp)%nat) by lia.
  destruct (Qlt_le_dec (entry pre i c) (entry pre j c)) as [Hlt|Hge].
  - left. apply final_zero_stays with (i := i); [exact Hlen | exact HS|].
    apply (iter_own_zeroed _ _ _ _ Hi Hb j c); try assumption. lia.
  - right. apply final_zero_stays with (i := i); [exact Hlen | exact HS|].
    apply (iter_later_zeroed _ _ _ _ Hi Hb j c); try assumption; [lia|].
    now apply Qle_not_lt.
Qed.

(** An iteration whose box overlaps no later box writes nothing. *)
Lemma iter_no_overlap (s : list (list Q)) (i : nat) :
  (i < length s)%nat -> length bboxes = length s ->
  (forall j, (i < j < length s)%nat -> ov i j = false) ->
  iter s i = s.
Proof.
  intros Hi Hb Hno.
  apply table_ext; [now apply iter_same_shape|]. intros r c.
  destruct (Nat.lt_trichotomy r i) as [Hr|[->|Hr]].
  - unfold entry, iter. now rewrite nms_iter_earlier by assumption.
  - destruct (iter_own_cases bboxes nms_thresh s i Hi Hb c)
      as [E|[_ (j & Hj & Ho & _)]]; [exact E|].
    fold ov in Ho. rewrite (Hno j Hj) in Ho. discriminate.
  - destruct (iter_later_cases bboxes nms_thresh s i Hi Hb r c Hr)
      as [[E _]|(Ho & Hlt & _)].
    + unfold entry. fold iter in E. now rewrite E.
    + fold ov in Ho. rewrite (Hno r (conj Hr Hlt)) in Ho. discriminate.
Qed.

Lemma range_no_overlap (k n : nat) (s : list (list Q)) :
  length bboxes = length s -> (k + n <= length s)%nat ->
  (forall i j, (i < j < length s)%nat -> ov i j = false) ->
  nms_range bboxes nms_thresh k n s = s.
Proof.
  intros Hb H Hno. induction n as [|n IH]; [reflexivity|].
  rewrite nms_range_S, IH by lia.
  apply iter_no_overlap; [lia | exact Hb|].
  intros j Hj. now apply Hno.
Qed.

Lemma loop_no_overlap :
  (forall i j, (i < j < length cp)%nat -> ov i j = false) ->
  final = cp.
Proof.
  intro Hno. unfold final, nms_loop, nms_prefix.
  apply range_no_overlap; [exact Hlen | lia | exact Hno].
Qed.

End Postcondition.

(** X5.  After one call, of any two boxes whose IOU exceeds the threshold
    at least one holds 0 for each class: no class is left to two boxes that
    overlap. *)
Theorem suppression_pairwise_exclusive (preds : tensor) (nms_thresh : Q)
  (i j c : nat) :
  rectangular preds = true ->
  (i < j < n_boxes preds)%nat ->
  overlaps (bboxes_of preds) nms_thresh i j = true ->
  score (suppressed preds nms_thresh) i c = 0 \/
  score (suppressed preds nms_thresh) j c = 0.
Proof.
  intros Hrect Hij Hov.
  pose proof (rectangular_width preds Hrect) as Hw.
  destruct (Nat.le_gt_cases (n_classes preds) c) as [Hc|Hc].
  - left.
    destruct (suppressed_only_zeroes preds nms_thresh i c) as [E|E];
      [|exact E].
    rewrite E. apply entry_overflow. rewrite Hw; [exact Hc|].
    rewrite class_probs_of_length. unfold n_boxes in Hij. lia.
  - assert (Hcols : (YOLO_TH < ncols preds)%nat)
      by (unfold n_classes, YOLO_CLASS_START, YOLO_TH in *; lia).
    unfold score. rewrite suppressed_scores by exact Hcols.
    apply loop_pair_zero with (C := n_classes preds).
    + apply bboxes_class_probs_length.
    + exact Hw.
    + rewrite class_probs_of_length. exact Hij.
    + exact Hov.
Qed.

Lemma suppression_pairwise_exclusive_witness :
  score (suppressed three_boxes (1#2)) 0 0 = 0 \/
  score (suppressed three_boxes (1#2)) 2 0 = 0.
Proof.
  apply (suppression_pairwise_exclusive three_boxes (1#2) 0 2 0).
  - reflexivity.
  - cbv. lia.
  - reflexivity.
Defined.

(** X7.  When no two boxes have an IOU above the threshold, and so for a
    buffer of one box or of none, the call returns and leaves the buffer as
    it is. *)
Theorem suppression_no_overlap_unchanged (preds : tensor) (nms_thresh : Q) :
  (YOLO_TH < ncols preds)%nat ->
  (forall i j, (i < j < n_boxes preds)%nat ->
     overlaps (bboxes_of preds) nms_thresh i j = false) ->
  greedy_nms_inplace preds nms_thresh = (Returned, preds).
Proof.
  intros Hcols Hno.
  destruct (greedy_cases preds nms_thresh) as [[L _]|[_ ->]]; [lia|].
  f_equal. rewrite loop_no_overlap.
  - apply store_own.
  - apply bboxes_class_probs_length.
  - intros i j Hij. apply Hno. now rewrite class_probs_of_length in Hij.
Qed.

Lemma suppression_no_overlap_unchanged_witness :
  greedy_nms_inplace far_boxes (1#2) = (Returned, far_boxes).
Proof.
  apply (suppression_no_overlap_unchanged far_boxes (1#2)).
  - cbv. lia.
  - intros i j Hij.
    assert (E : i = 0%nat /\ j = 1%nat) by (cbv in Hij; lia).
    destruct E as [-> ->]. reflexivity.
Defined.

(** ** Thresholds and shapes at the edge *)

(** The IOU of two boxes that are not degenerate exceeds no threshold from
    1 on. *)
Lemma iou_mask_above_one (a b : list Q) (t : Q) :
  col BBOX_X1 a <= col BBOX_X2 a -> col BBOX_Y1 a <= col BBOX_Y2 a ->
  col BBOX_X1 b <= col BBOX_X2 b -> col BBOX_Y1 b <= col BBOX_Y2 b ->
  1 <= t -> fgt (bbox_iou1 a b) t = false.
Proof.
  intros Hax Hay Hbx Hby Ht.
  pose proof (interArea_nonneg a b) as Hi.
  pose proof (interArea_le_area_l a b Hax Hay) as Hia.
  assert (Hib : interArea a b <= bbox_area b)
    by (rewrite interArea_sym; now apply interArea_le_area_l).
  unfold bbox_iou1, fdiv.
  destruct (Qeq_bool (unionArea a b) 0) eqn:Eu.
  - apply Qeq_bool_iff in Eu. unfold unionArea in Eu.
    assert (Ez : interArea a b == 0) by lra.
    apply Qeq_bool_iff in Ez. now rewrite Ez.
  - apply Qeq_bool_neq in Eu. simpl. apply Qltb_ge.
    assert (Hu : 0 < unionArea a b) by (unfold unionArea in *; lra).
    apply Qle_trans with 1; [|exact Ht].
    apply Qle_shift_div_r; [exact Hu|]. unfold unionArea. lra.
Qed.

Lemma corners_eq (tx ty tw th : Q) :
  corners [tx; ty; tw; th]
  = [tx - tw / 2; ty - th / 2; tx + tw / 2; ty + th / 2].
Proof. reflexivity. Qed.

Lemma corners_not_degenerate (tx ty tw th : Q) :
  0 <= tw -> 0 <= th ->
  col BBOX_X1 (corners [tx; ty; tw; th])
  <= col BBOX_X2 (corners [tx; ty; tw; th]) /\
  col BBOX_Y1 (corners [tx; ty; tw; th])
  <= col BBOX_Y2 (corners [tx; ty; tw; th]).
Proof.
  intros Hw Hh. rewrite corners_eq.
  unfold col, BBOX_X1, BBOX_Y1, BBOX_X2, BBOX_Y2. cbn [nth].
  assert (Ew : tw / 2 == tw * (1#2)) by field.
  assert (Eh : th / 2 == th * (1#2)) by field.
  rewrite Ew, Eh. split; lra.
Qed.

Lemma rectangular_row_length (preds : tensor) (r : nat) :
  rectangular preds = true -> (r < n_boxes preds)%nat ->
  length (nth r (rows preds) []) = ncols preds.
Proof.
  unfold rectangular, n_boxes. intros H Hr. rewrite forallb_forall in H.
  apply Nat.eqb_eq. apply H. now apply nth_In.
Qed.

(** The box of row [r], from its four attributes. *)
Lemma bboxes_of_nth (preds : tensor) (r : nat) :
  rectangular preds = true -> (YOLO_TH < ncols preds)%nat ->
  (r < n_boxes preds)%nat ->
  nth r (bboxes_of preds) []
  = corners [col YOLO_TX (nth r (rows preds) []);
             col YOLO_TY (nth r (rows preds) []);
             col YOLO_TW (nth r (rows preds) []);
             col YOLO_TH (nth r (rows preds) [])].
Proof.
  intros Hrect Hcols Hr.
  pose proof (rectangular_row_length preds r Hrect Hr) as Hl.
  unfold bboxes_of, bbox_attrs_of.
  rewrite (nth_map_in corners _ _ [] [])
    by (rewrite length_map; exact Hr).
  rewrite (nth_map_in _ _ _ [] []) by exact Hr.
  destruct (nth r (rows preds) []) as [|tx [|ty [|tw [|th rest]]]];
    simpl in Hl; unfold YOLO_TH in Hcols; try lia.
  reflexivity.
Qed.

(** X8.  With a threshold of 1 or more nothing is suppressed: on a buffer
    whose boxes have a width and a height that are not negative, no IOU
    exceeds the threshold and the call leaves the buffer as it is. *)
Theorem suppression_threshold_one_unchanged (preds : tensor)
  (nms_thresh : Q) :
  rectangular preds = true -> (YOLO_TH < ncols preds)%nat ->
  (forall r, (r < n_boxes preds)%nat ->
     0 <= col YOLO_TW (nth r (rows preds) []) /\
     0 <= col YOLO_TH (nth r (rows preds) [])) ->
  1 <= nms_thresh ->
  greedy_nms_inplace preds nms_thresh = (Returned, preds).
Proof.
  intros Hrect Hcols Hwh Ht.
  destruct (greedy_cases preds nms_thresh) as [[L _]|[_ ->]]; [lia|].
  f_equal. rewrite loop_no_overlap.
  - apply store_own.
  - apply bboxes_class_probs_length.
  - intros i j Hij. rewrite class_probs_of_length in Hij.
    unfold overlaps, iou_of.
    rewrite !bboxes_of_nth by (assumption || (unfold n_boxes; lia)).
    destruct (Hwh i) as [Hwi Hhi]; [unfold n_boxes; lia|].
    destruct (Hwh j) as [Hwj Hhj]; [unfold n_boxes; lia|].
    destruct (corners_not_degenerate
                (col YOLO_TX (nth i (rows preds) []))
                (col YOLO_TY (nth i (rows preds) [])) _ _ Hwi Hhi).
    destruct (corners_not_degenerate
                (col YOLO_TX (nth j (rows preds) []))
                (col YOLO_TY (nth j (rows preds) [])) _ _ Hwj Hhj).
    now apply iou_mask_above_one.
Qed.

Lemma suppression_threshold_one_unchanged_witness :
  greedy_nms_inplace same_boxes 1 = (Returned, same_boxes).
Proof.
  apply (suppression_threshold_one_unchanged same_boxes 1).
  - reflexivity.
  - cbv. lia.
  - intros r Hr.
    assert (E : r = 0%nat \/ r = 1%nat) by (cbv in Hr; lia).
    destruct E as [-> | ->]; split; vm_compute; discriminate.
  - vm_compute. discriminate.
Defined.

(** X9.  The call raises [IndexError] exactly when the buffer has fewer
    than four columns, and then it has written nothing; a buffer of four or
    five columns, which has no class score, comes back as it is. *)
Theorem greedy_nms_narrow_buffers (preds : tensor) (nms_thresh : Q) :
  (fst (greedy_nms_inplace preds nms_thresh) = IndexError
   <-> (ncols preds < 4)%nat) /\
  (fst (greedy_nms_inplace preds nms_thresh) = IndexError ->
   snd (greedy_nms_inplace preds nms_thresh) = preds) /\
  (rectangular preds = true -> (ncols preds <= YOLO_CLASS_START)%nat ->
   snd (greedy_nms_inplace preds nms_thresh) = preds).
Proof.
  destruct (greedy_cases preds nms_thresh) as [[L E]|[L E]];
    rewrite E; unfold YOLO_TH in L; simpl.
  - split; [split; [lia | reflexivity]|]. split; reflexivity.
  - split; [split; [discriminate | lia]|]. split; [discriminate|].
    intros Hrect Hc.
    pose proof (rectangular_width preds Hrect) as Hw.
    assert (Hz : forall r c, entry (class_probs_of preds) r c = 0).
    { intros r c. apply entry_overflow.
      destruct (Nat.lt_ge_cases r (length (class_probs_of preds)))
        as [Hr|Hr].
      - rewrite Hw by exact Hr. unfold n_classes. lia.
      - rewrite nth_overflow by exact Hr. simpl. lia. }
    replace (nms_loop _ _ _) with (class_probs_of preds);
      [apply store_own|].
    symmetry. apply table_ext.
    + apply final_same_shape, bboxes_class_probs_length.
    + intros r c. rewrite Hz.
      destruct (final_only_zeroes (bboxes_of preds) nms_thresh
                  (class_probs_of preds)
                  (bboxes_class_probs_length preds) r c) as [F|F];
        [now rewrite F | exact F].
Qed.

Lemma greedy_nms_narrow_buffers_witness :
  snd (greedy_nms_inplace
         (mkTensor 5 [ [0; 0; 2; 2; 1]; [0; 0; 2; 2; 1] ]) (1#2))
  = mkTensor 5 [ [0; 0; 2; 2; 1]; [0; 0; 2; 2; 1] ].
Proof.
  apply (greedy_nms_narrow_buffers
           (mkTensor 5 [ [0; 0; 2; 2; 1]; [0; 0; 2; 2; 1] ]) (1#2)).
  - reflexivity.
  - cbv. lia.
Defined.

(** ** The best box of a neighbourhood *)

Section StrictMaximum.

Variable bboxes : list (list Q).
Variable nms_thresh : Q.
Variable cp : list (list Q).
Variable C : nat.
Variables k c : nat.
Hypothesis Hlen : length bboxes = length cp.
Hypothesis Hw : width C cp.
Hypothesis Hk : (k < length cp)%nat.
Hypothesis Hc : (c < C)%nat.
Hypothesis Hpos : 0 < entry cp k c.
Hypothesis Hbefore :
  forall i, (i < k)%nat -> overlaps bboxes nms_thresh i k = true ->
    entry cp i c < entry cp k c.
Hypothesis Hafter :
  forall j, (k < j < length cp)%nat ->
    overlaps bboxes nms_thresh k j = true ->
    entry cp j c < entry cp k c.

Let iter := nms_iter bboxes nms_thresh.
Let prefix := nms_prefix bboxes nms_thresh cp.
Let final := nms_loop bboxes nms_thresh cp.

(** A score below the best one is below it at every stage of the loop. *)
Lemma stays_below (m r : nat) :
  (m <= length cp)%nat -> entry cp r c < entry cp k c ->
  entry (prefix m) r c < entry cp k c.
Proof.
  intros Hm Hr.
  destruct (range_only_zeroes bboxes nms_thresh 0 m cp r c Hlen Hm)
    as [E|E]; unfold prefix, nms_prefix; rewrite E; assumption.
Qed.

Lemma prefix_facts (m : nat) :
  (m < length cp)%nat ->
  (m < length (prefix m))%nat /\ length bboxes = length (prefix m) /\
  forall r, (r < length cp)%nat -> (c < length (nth r (prefix m) []))%nat.
Proof.
  intro Hm.
  assert (Hs : same_shape (prefix m) cp)
    by (apply prefix_same_shape; [exact Hlen | lia]).
  pose proof (same_shape_width C _ _ Hs Hw) as Hwp.
  destruct Hs as [Hl _]. repeat split; try lia.
  intros r Hr. rewrite Hwp; lia.
Qed.

(** The best score is not written before its own iteration. *)
Lemma best_kept_prefix (m : nat) :
  (m <= k)%nat -> entry (prefix m) k c = entry cp k c.
Proof.
  induction m as [|m IH]; intro Hm; [reflexivity|].
  unfold prefix. rewrite prefix_S. fold prefix iter.
  destruct (prefix_facts m) as (Hi & Hb & _); [lia|].
  destruct (iter_later_cases bboxes nms_thresh (prefix m) m Hi Hb k c)
    as [[E _]|(Ho & _ & [[E _]|(_ & _ & _ & Hge)])]; [lia | | |].
  - unfold entry. fold iter in E. rewrite E. apply IH. lia.
  - fold iter in E. rewrite E. apply IH. lia.
  - exfalso. rewrite IH in Hge by lia.
    apply (Qlt_not_le (entry (prefix m) m c) (entry cp k c));
      [|exact Hge].
    apply stays_below; [lia|]. apply Hbefore; [lia | exact Ho].
Qed.

Lemma best_kept_own :
  (S k < length cp)%nat -> entry (iter (prefix k) k) k c = entry cp k c.
Proof.
  intro HS. destruct (prefix_facts k Hk) as (Hi & Hb & _).
  destruct (iter_own_cases bboxes nms_thresh (prefix k) k Hi Hb c)
    as [E|[_ (j & Hj & Ho & _ & _ & Hlt)]].
  - fold iter in E. rewrite E. now apply best_kept_prefix.
  - exfalso. rewrite best_kept_prefix in Hlt by lia.
    apply (Qlt_irrefl (entry cp k c)).
    apply Qlt_trans with (entry (prefix k) j c); [exact Hlt|].
    apply stays_below; [lia|]. apply Hafter; [lia | exact Ho].
Qed.

Lemma best_kept_final : entry final k c = entry cp k c.
Proof.
  destruct (Nat.lt_ge_cases (S k) (length cp)) as [HS|HS].
  - unfold entry, final. rewrite final_own_row by assumption.
    now apply best_kept_own.
  - unfold final, nms_loop. rewrite Hlen.
    replace (length cp - 1)%nat with k by lia.
    now apply best_kept_prefix.
Qed.

Lemma earlier_neighbour_zeroed (i : nat) :
  (i < k)%nat -> overlaps bboxes nms_thresh i k = true ->
  entry final i c = 0.
Proof.
  intros Hi Ho.
  destruct (prefix_facts i) as (Hip & Hb & Hwp); [lia|].
  apply final_zero_stays with (i := i); [exact Hlen | lia|].
  apply (iter_own_zeroed _ _ _ _ Hip Hb k c).
  - rewrite <- Hb, Hlen. lia.
  - exact Ho.
  - apply Hwp. lia.
  - apply Hwp. lia.
  - fold prefix. rewrite best_kept_prefix by lia.
    apply stays_below; [lia|]. now apply Hbefore.
Qed.

Lemma later_neighbour_zeroed (j : nat) :
  (k < j < length cp)%nat -> overlaps bboxes nms_thresh k j = true ->
  entry final j c = 0.
Proof.
  intros Hj Ho.
  destruct (prefix_facts k Hk) as (Hip & Hb & Hwp).
  apply final_zero_stays with (i := k); [exact Hlen | lia|].
  apply (iter_later_zeroed _ _ _ _ Hip Hb j c).
  - rewrite <- Hb, Hlen. lia.
  - exact Ho.
  - apply Hwp. lia.
  - apply Hwp. lia.
  - fold prefix. rewrite best_kept_prefix by lia.
    intro Hlt. apply (Qlt_irrefl (entry cp k c)).
    apply Qlt_trans with (entry (prefix k) j c); [exact Hlt|].
    apply stays_below; [lia|]. now apply Hafter.
Qed.

End StrictMaximum.

(** X6.  A box whose score for a class is positive and above the score of
    every box that overlaps it keeps that score, and every box that
    overlaps it holds 0 for the class after the call, wherever the boxes
    stand in the buffer. *)
Theorem best_box_survives (preds : tensor) (nms_thresh : Q) (k c : nat) :
  rectangular preds = true ->
  (k < n_boxes preds)%nat -> (c < n_classes preds)%nat ->
  0 < score preds k c ->
  (forall i, (i < k)%nat ->
     overlaps (bboxes_of preds) nms_thresh i k = true ->
     score preds i c < score preds k c) ->
  (forall j, (k < j < n_boxes preds)%nat ->
     overlaps (bboxes_of preds) nms_thresh k j = true ->
     score preds j c < score preds k c) ->
  let out := suppressed preds nms_thresh in
  score out k c = score preds k c /\
  (forall i, (i < k)%nat ->
     overlaps (bboxes_of preds) nms_thresh i k = true -> score out i c = 0) /\
  (forall j, (k < j < n_boxes preds)%nat ->
     overlaps (bboxes_of preds) nms_thresh k j = true -> score out j c = 0).
Proof.
  intros Hrect Hk Hc Hpos Hbefore Hafter out.
  assert (Hcols : (YOLO_TH < ncols preds)%nat)
    by (unfold n_classes, YOLO_CLASS_START, YOLO_TH in *; lia).
  pose proof (rectangular_width preds Hrect) as Hw.
  pose proof (bboxes_class_probs_length preds) as Hlen.
  assert (Hk' : (k < length (class_probs_of preds))%nat)
    by (now rewrite class_probs_of_length).
  assert (Hafter' :
    forall j, (k < j < length (class_probs_of preds))%nat ->
      overlaps (bboxes_of preds) nms_thresh k j = true ->
      entry (class_probs_of preds) j c < entry (class_probs_of preds) k c).
  { intros j Hj. apply Hafter. now rewrite class_probs_of_length in Hj. }
  unfold out, score. rewrite suppressed_scores by exact Hcols.
  split; [|split].
  - now apply best_kept_final with (C := n_classes preds).
  - intros i Hi Ho.
    now apply earlier_neighbour_zeroed
      with (C := n_classes preds) (k := k).
  - intros j Hj Ho.
    apply later_neighbour_zeroed with (C := n_classes preds) (k := k);
      try assumption.
    now rewrite class_probs_of_length.
Qed.

Lemma best_box_survives_witness :
  score (suppressed three_boxes (1#2)) 1 0 = score three_boxes 1 0 /\
  (forall i, (i < 1)%nat ->
     overlaps (bboxes_of three_boxes) (1#2) i 1 = true ->
     score (suppressed three_boxes (1#2)) i 0 = 0) /\
  (forall j, (1 < j < n_boxes three_boxes)%nat ->
     overlaps (bboxes_of three_boxes) (1#2) 1 j = true ->
     score (suppressed three_boxes (1#2)) j 0 = 0).
Proof.
  apply (best_box_survives three_boxes (1#2) 1 0).
  - reflexivity.
  - cbv. lia.
  - cbv. lia.
  - reflexivity.
  - intros i Hi _. assert (E : i = 0%nat) by lia. subst i. reflexivity.
  - intros j Hj Ho. assert (E : j = 2%nat) by (cbv in Hj; lia). subst j.
    discriminate Ho.
Defined.

(** ** One class at a time *)

Section OneClass.

Variable bboxes : list (list Q).
Variable nms_thresh : Q.
Variable c : nat.

Let iter := nms_iter bboxes nms_thresh.

Lemma agree_flag (s t : list (list Q)) (i j : nat) :
  agree_on bboxes c s t -> (i < j < length s)%nat ->
  nth c (map2 Qltb (nth i s []) (nth j s [])) false
  = nth c (map2 Qltb (nth i t []) (nth j t [])) false.
Proof.
  intros (Hs & Ht & Hws & Hwt & He) Hij.
  rewrite !map2_Qltb_nth by (apply Hws || apply Hwt; lia).
  fold (entry s i c) (entry s j c) (entry t i c) (entry t j c).
  now rewrite !He.
Qed.

Lemma iter_agree (s t : list (list Q)) (i : nat) :
  agree_on bboxes c s t -> (i < length s)%nat ->
  forall r, entry (iter s i) r c = entry (iter t i) r c.
Proof.
  intros Ha Hi r. pose proof Ha as (Hs & Ht & Hws & Hwt & He).
  assert (Hit : (i < length t)%nat) by lia.
  destruct (Nat.lt_trichotomy r i) as [Hr|[->|Hr]].
  - unfold entry, iter. rewrite !nms_iter_earlier by assumption. apply He.
  - unfold iter. rewrite !nms_iter_own by assumption.
    match goal with
    | |- (if ?x then _ else _) = (if ?y then _ else _) =>
        assert (Ef : x = y)
    end.
    { apply eq_true_iff_eq.
      rewrite (own_flag_iff bboxes nms_thresh s i Hi Hs c).
      rewrite (own_flag_iff bboxes nms_thresh t i Hit Ht c).
      split; intros (j & Hj & Ho & Hf); exists j.
      - rewrite <- (agree_flag s t i j Ha Hj). repeat split; try lia;
          assumption.
      - assert (Hj' : (i < j < length s)%nat) by lia.
        rewrite (agree_flag s t i j Ha Hj'). repeat split; try lia;
          assumption. }
    rewrite Ef, He. reflexivity.
  - unfold entry, iter. rewrite !nms_iter_later by assumption.
    destruct ((r <? length bboxes)%nat && overlaps bboxes nms_thresh i r)
      eqn:Eb; [|apply He].
    apply andb_true_iff in Eb as [Eb _]. apply Nat.ltb_lt in Eb.
    rewrite !masked_zero_col.
    rewrite !(nth_map_in negb _ _ false false)
      by (rewrite map2_Qltb_length;
          apply Nat.min_glb_lt; apply Hws || apply Hwt; lia).
    rewrite (agree_flag s t i r Ha) by lia.
    fold (entry s r c) (entry t r c). now rewrite He.
Qed.

Lemma iter_agree_on (s t : list (list Q)) (i : nat) :
  agree_on bboxes c s t -> (i < length s)%nat ->
  agree_on bboxes c (iter s i) (iter t i).
Proof.
  intros Ha Hi. pose proof Ha as (Hs & Ht & Hws & Hwt & He).
  assert (Hit : (i < length t)%nat) by lia.
  destruct (iter_same_shape bboxes nms_thresh s i Hi Hs) as [Ls Rs].
  destruct (iter_same_shape bboxes nms_thresh t i Hit Ht) as [Lt Rt].
  fold iter in Ls, Rs, Lt, Rt.
  repeat split.
  - congruence.
  - congruence.
  - intros r Hr. rewrite Rs. apply Hws. lia.
  - intros r Hr. rewrite Rt. apply Hwt. lia.
  - now apply iter_agree.
Qed.

Lemma range_agree_on (k n : nat) (s t : list (list Q)) :
  agree_on bboxes c s t -> (k + n <= length s)%nat ->
  agree_on bboxes c (nms_range bboxes nms_thresh k n s)
           (nms_range bboxes nms_thresh k n t).
Proof.
  intros Ha H. induction n as [|n IH]; [exact Ha|].
  rewrite !nms_range_S. fold iter.
  assert (IH' := IH ltac:(lia)).
  apply iter_agree_on; [exact IH'|].
  destruct IH' as (Hs & _). destruct Ha as (Hs0 & _). lia.
Qed.

Lemma loop_agree (s t : list (list Q)) (r : nat) :
  agree_on bboxes c s t ->
  entry (nms_loop bboxes nms_thresh s) r c
  = entry (nms_loop bboxes nms_thresh t) r c.
Proof.
  intro Ha. unfold nms_loop, nms_prefix.
  destruct (range_agree_on 0 (length bboxes - 1) s t Ha)
    as (_ & _ & _ & _ & E).
  - destruct Ha as (Hs & _). lia.
  - apply E.
Qed.

End OneClass.

(** X10.  Each class is suppressed on its own: two buffers with the same
    boxes and the same scores for a class [c] have the same scores for [c]
    after the call, whatever their other classes hold and however many
    there are. *)
Theorem class_channels_independent (p q : tensor) (nms_thresh : Q)
  (c : nat) :
  rectangular p = true -> rectangular q = true ->
  bbox_attrs_of p = bbox_attrs_of q ->
  (c < n_classes p)%nat -> (c < n_classes q)%nat ->
  (forall r, score p r c = score q r c) ->
  forall r,
    score (suppressed p nms_thresh) r c = score (suppressed q nms_thresh) r c.
Proof.
  intros Hp Hq Hbox Hcp Hcq Hsc r.
  assert (Lp : (YOLO_TH < ncols p)%nat)
    by (unfold n_classes, YOLO_CLASS_START, YOLO_TH in *; lia).
  assert (Lq : (YOLO_TH < ncols q)%nat)
    by (unfold n_classes, YOLO_CLASS_START, YOLO_TH in *; lia).
  assert (Eb : bboxes_of q = bboxes_of p)
    by (unfold bboxes_of; now rewrite Hbox).
  unfold score. rewrite !suppressed_scores by assumption. rewrite Eb.
  apply loop_agree. repeat split.
  - apply bboxes_class_probs_length.
  - rewrite <- Eb. apply bboxes_class_probs_length.
  - intros i Hi. rewrite (rectangular_width p Hp i Hi). exact Hcp.
  - intros i Hi. rewrite (rectangular_width q Hq i Hi). exact Hcq.
  - exact Hsc.
Qed.

Lemma class_channels_independent_witness :
  score (suppressed two_boxes (1#2)) 1 0
  = score (suppressed two_boxes_one_class (1#2)) 1 0.
Proof.
  apply (class_channels_independent two_boxes two_boxes_one_class (1#2) 0).
  - reflexivity.
  - reflexivity.
  - reflexivity.
  - cbv. lia.
  - cbv. lia.
  - intros [|[|r]]; reflexivity.
Defined.

(** * Properties of [utilities/inferencing.py] *)

Section VideoLoop.

Variables frame input predictions detections : Type.
Variable preprocess_image_eval : frame -> input.
Variable model : input -> predictions.
Variable extract_detections : predictions -> detections.
Variable correct_detections : detections -> frame -> detections.
Variable draw_detections : detections -> frame -> frame.
Variables NO_BENCHMARK MODEL_ONLY MODEL_WITH_PP MODEL_WITH_IO : nat.
Variable clock : nat -> Q.

Let state := video_state frame.
Let out := output_frame_of frame input predictions detections
             preprocess_image_eval model extract_detections
             correct_detections draw_detections.
Let step := video_frame frame input predictions detections
              preprocess_image_eval model extract_detections
              correct_detections draw_detections
              MODEL_ONLY MODEL_WITH_PP MODEL_WITH_IO clock.
Let loop := video_loop frame input predictions detections
              preprocess_image_eval model extract_detections
              correct_detections draw_detections
              NO_BENCHMARK MODEL_ONLY MODEL_WITH_PP MODEL_WITH_IO clock.
Let start := read_start frame clock.
Let stop := read_end frame clock.

Lemma start_written (cond : bool) (st : state) :
  written frame (start cond st) = written frame st.
Proof. now destruct cond. Qed.

Lemma start_sum_time (cond : bool) (st : state) :
  sum_time frame (start cond st) = sum_time frame st.
Proof. now destruct cond. Qed.

Lemma start_frame_count (cond : bool) (st : state) :
  frame_count frame (start cond st) = frame_count frame st.
Proof. now destruct cond. Qed.

Lemma stop_written (cond : bool) (st : state) :
  written frame (stop cond st) = written frame st.
Proof. now destruct cond. Qed.

Lemma stop_frame_count (cond : bool) (st : state) :
  frame_count frame (stop cond st) = frame_count frame st.
Proof. now destruct cond. Qed.

(** One pass, as the chain of its effects. *)
Lemma step_eq (b : nat) (f : frame) (st : state) :
  step b f st
  = count_frame frame
      (stop (Nat.eqb b MODEL_WITH_IO)
         (write_frame frame (out f)
            (stop (Nat.eqb b MODEL_WITH_PP)
               (stop (Nat.eqb b MODEL_ONLY)
                  (start (Nat.eqb b MODEL_ONLY)
                     (start (Nat.eqb b MODEL_WITH_PP)
                        (start (Nat.eqb b MODEL_WITH_IO) st))))))).
Proof. reflexivity. Qed.

(** The loop, one frame at a time. *)
Lemma loop_nil (b : nat) (verbose : bool) (st : state) :
  loop b verbose [] st = (false, start (Nat.eqb b MODEL_WITH_IO) st).
Proof. reflexivity. Qed.

Lemma loop_cons (b : nat) (verbose : bool) (f : frame) (rest : list frame)
  (st : state) :
  loop b verbose (f :: rest) st
  = if verbose && negb (Nat.eqb b NO_BENCHMARK)
       && Qeq_bool (sum_time frame (step b f st)) 0
    then (true, step b f st)
    else loop b verbose rest (step b f st).
Proof. reflexivity. Qed.

(** Whatever the benchmark kind, a pass writes the frame and counts it. *)
Lemma step_written (b : nat) (f : frame) (st : state) :
  written frame (step b f st) = written frame st ++ [out f].
Proof.
  rewrite step_eq. unfold count_frame. cbn [written].
  rewrite stop_written. unfold write_frame. cbn [written].
  now rewrite !stop_written, !start_written.
Qed.

Lemma step_frame_count (b : nat) (f : frame) (st : state) :
  frame_count frame (step b f st) = S (frame_count frame st).
Proof.
  rewrite step_eq. unfold count_frame. cbn [frame_count].
  rewrite stop_frame_count. unfold write_frame. cbn [frame_count].
  now rewrite !stop_frame_count, !start_frame_count.
Qed.

(** A kind that times no stage leaves [sum_time] alone. *)
Lemma step_untimed (b : nat) (f : frame) (st : state) :
  b <> MODEL_ONLY -> b <> MODEL_WITH_PP -> b <> MODEL_WITH_IO ->
  sum_time frame (step b f st) = sum_time frame st.
Proof.
  intros H1 H2 H3. rewrite step_eq.
  apply Nat.eqb_neq in H1, H2, H3. rewrite H1, H2, H3. reflexivity.
Qed.

(** A kind that times one stage takes two readings around it. *)
Lemma step_timed (b : nat) (f : frame) (st : state) :
  b = MODEL_ONLY \/ b = MODEL_WITH_PP \/ b = MODEL_WITH_IO ->
  MODEL_ONLY <> MODEL_WITH_PP -> MODEL_ONLY <> MODEL_WITH_IO ->
  MODEL_WITH_PP <> MODEL_WITH_IO ->
  ticks frame (step b f st) = S (S (ticks frame st)) /\
  sum_time frame (step b f st)
  = sum_time frame st
    + (clock (S (ticks frame st)) - clock (ticks frame st)).
Proof.
  intros Hb D1 D2 D3. rewrite step_eq.
  assert (E1 : Nat.eqb MODEL_ONLY MODEL_WITH_PP = false)
    by (now apply Nat.eqb_neq).
  assert (E2 : Nat.eqb MODEL_ONLY MODEL_WITH_IO = false)
    by (now apply Nat.eqb_neq).
  assert (E3 : Nat.eqb MODEL_WITH_PP MODEL_WITH_IO = false)
    by (now apply Nat.eqb_neq).
  assert (E1' : Nat.eqb MODEL_WITH_PP MODEL_ONLY = false)
    by (apply Nat.eqb_neq; congruence).
  assert (E2' : Nat.eqb MODEL_WITH_IO MODEL_ONLY = false)
    by (apply Nat.eqb_neq; congruence).
  assert (E3' : Nat.eqb MODEL_WITH_IO MODEL_WITH_PP = false)
    by (apply Nat.eqb_neq; congruence).
  destruct Hb as [-> | [-> | ->]];
    rewrite ?Nat.eqb_refl, ?E1, ?E2, ?E3, ?E1', ?E2', ?E3';
    split; reflexivity.
Qed.

(** The frames written are the outputs of the frames read, in order, up to
    the frame at which the loop stops. *)
Lemma loop_written (b : nat) (verbose : bool) (frames : list frame)
  (st : state) :
  exists n,
    written frame (snd (loop b verbose frames st))
    = written frame st ++ map out (firstn n frames) /\
    (fst (loop b verbose frames st) = false ->
     n = length frames /\
     frame_count frame (snd (loop b verbose frames st))
     = (frame_count frame st + length frames)%nat) /\
    (verbose = false -> fst (loop b verbose frames st) = false).
Proof.
  revert st. induction frames as [|f rest IH]; intro st.
  - exists O. rewrite loop_nil. cbn [fst snd firstn map length].
    rewrite start_written, start_frame_count, app_nil_r.
    repeat split; try reflexivity; lia.
  - rewrite loop_cons.
    destruct (verbose && negb (Nat.eqb b NO_BENCHMARK)
              && Qeq_bool (sum_time frame (step b f st)) 0) eqn:E.
    + exists 1%nat. cbn [fst snd firstn map]. rewrite step_written.
      split; [reflexivity|]. split; [discriminate|].
      intros ->. discriminate.
    + destruct (IH (step b f st)) as (n & Hn & Hf & Hv).
      exists (S n). rewrite Hn, step_written, <- app_assoc.
      split; [reflexivity|]. split; [|exact Hv].
      intro Hfalse. destruct (Hf Hfalse) as [-> Hcount].
      split; [reflexivity|]. rewrite Hcount, step_frame_count.
      cbn [length]. lia.
Qed.

(** A kind that times no stage leaves [sum_time] at its value. *)
Lemma loop_sum_untimed (b : nat) (verbose : bool) (frames : list frame)
  (st : state) :
  b <> MODEL_ONLY -> b <> MODEL_WITH_PP -> b <> MODEL_WITH_IO ->
  sum_time frame (snd (loop b verbose frames st)) = sum_time frame st.
Proof.
  intros H1 H2 H3. revert st.
  induction frames as [|f rest IH]; intro st.
  - rewrite loop_nil. cbn [snd]. apply start_sum_time.
  - rewrite loop_cons.
    destruct (verbose && negb (Nat.eqb b NO_BENCHMARK)
              && Qeq_bool (sum_time frame (step b f st)) 0).
    + cbn [snd]. now apply step_untimed.
    + rewrite IH. now apply step_untimed.
Qed.

(** Without a benchmark the loop does not stop. *)
Lemma loop_no_benchmark (verbose : bool) (frames : list frame)
  (st : state) :
  fst (loop NO_BENCHMARK verbose frames st) = false.
Proof.
  revert st. induction frames as [|f rest IH]; intro st.
  - reflexivity.
  - rewrite loop_cons, Nat.eqb_refl. cbn [negb].
    rewrite andb_false_r. cbn [andb]. apply IH.
Qed.

(** With a kind that times a stage, the loop adds up the time of the frames
    and does not stop while that time is not 0. *)
Lemma loop_timed (b : nat) (verbose : bool) (frames : list frame)
  (st : state) (m : nat) :
  b = MODEL_ONLY \/ b = MODEL_WITH_PP \/ b = MODEL_WITH_IO ->
  MODEL_ONLY <> MODEL_WITH_PP -> MODEL_ONLY <> MODEL_WITH_IO ->
  MODEL_WITH_PP <> MODEL_WITH_IO ->
  ticks frame st = (2 * m)%nat -> sum_time frame st = elapsed clock m ->
  (forall k, (m < k <= m + length frames)%nat -> ~ elapsed clock k == 0) ->
  fst (loop b verbose frames st) = false /\
  sum_time frame (snd (loop b verbose frames st))
  = elapsed clock (m + length frames).
Proof.
  intros Hkind D1 D2 D3.
  revert st m. induction frames as [|f rest IH]; intros st m Ht Hs Hnz.
  - rewrite loop_nil. cbn [fst snd length].
    rewrite start_sum_time, Nat.add_0_r. split; [reflexivity | exact Hs].
  - destruct (step_timed b f st Hkind D1 D2 D3) as [Et Es].
    assert (Es' : sum_time frame (step b f st) = elapsed clock (S m)).
    { rewrite Es, Hs, Ht. cbn [elapsed].
      replace (2 * m + 1)%nat with (S (2 * m)) by lia. reflexivity. }
    assert (Hz : Qeq_bool (sum_time frame (step b f st)) 0 = false).
    { rewrite Es'. apply Qeq_bool_false. apply Hnz. cbn [length]. lia. }
    rewrite loop_cons, Hz, andb_false_r.
    replace (m + length (f :: rest))%nat with (S m + length rest)%nat
      by (cbn [length]; lia).
    apply IH.
    + rewrite Et, Ht. lia.
    + exact Es'.
    + intros k Hk. apply Hnz. cbn [length]. lia.
Qed.

Let run := inference_video_to_video frame input predictions detections
             preprocess_image_eval model extract_detections
             correct_detections draw_detections
             NO_BENCHMARK MODEL_ONLY MODEL_WITH_PP MODEL_WITH_IO clock.
Let init : state := mkVideo frame [] 0 0 0 0.

(** The call, from what the loop leaves. *)
Lemma run_eq (b : nat) (verbose : bool) (frames : list frame) :
  run b verbose frames
  = if fst (loop b verbose frames init)
    then (ZeroDivisionError,
          written frame (snd (loop b verbose frames init)))
    else if negb (Nat.eqb b NO_BENCHMARK)
    then if Qeq_bool (sum_time frame (snd (loop b verbose frames init))) 0
         then (ZeroDivisionError,
               written frame (snd (loop b verbose frames init)))
         else (Fps (Some
                 (Qcount (frame_count frame
                            (snd (loop b verbose frames init)))
                  / sum_time frame (snd (loop b verbose frames init)))),
               written frame (snd (loop b verbose frames init)))
    else (Fps None, written frame (snd (loop b verbose frames init))).
Proof.
  unfold run, inference_video_to_video. fold loop init.
  now destruct (loop b verbose frames init).
Qed.

Lemma run_written (b : nat) (verbose : bool) (frames : list frame) :
  snd (run b verbose frames)
  = written frame (snd (loop b verbose frames init)).
Proof.
  rewrite run_eq.
  destruct (fst (loop b verbose frames init));
    [reflexivity|].
  destruct (negb (Nat.eqb b NO_BENCHMARK)); [|reflexivity].
  now destruct (Qeq_bool _ 0).
Qed.

Lemma run_returns (b : nat) (verbose : bool) (frames : list frame) :
  fst (run b verbose frames) <> ZeroDivisionError ->
  fst (loop b verbose frames init) = false.
Proof.
  rewrite run_eq. destruct (fst (loop b verbose frames init));
    [|reflexivity].
  intro H. exfalso. now apply H.
Qed.

(** X11.  Whatever the benchmark kind, the verbosity and the clock, the
    frames written to [video_out] are the outputs of the frames read, in
    the order read, with none left out before the last one written; when
    the call returns, or when it is not verbose, every frame read is
    written. *)
Theorem video_frames_in_order (b : nat) (verbose : bool)
  (frames : list frame) :
  (exists n, snd (run b verbose frames) = map out (firstn n frames)) /\
  (verbose = false \/ fst (run b verbose frames) <> ZeroDivisionError ->
   snd (run b verbose frames) = map out frames).
Proof.
  destruct (loop_written b verbose frames init) as (n & Hn & Hf & Hv).
  rewrite run_written. change (written frame init) with (@nil frame) in Hn.
  cbn [app] in Hn. split; [exists n; exact Hn|].
  intro H.
  assert (E : fst (loop b verbose frames init) = false)
    by (destruct H as [H|H]; [now apply Hv | now apply run_returns]).
  destruct (Hf E) as [-> _]. now rewrite Hn, firstn_all.
Qed.

(** X12.  Without a benchmark the call returns [None] and writes every
    frame, verbose or not: [fps] is never computed. *)
Theorem video_no_benchmark (b : nat) (verbose : bool) (frames : list frame) :
  b = NO_BENCHMARK ->
  run b verbose frames = (Fps None, map out frames).
Proof.
  intros ->. rewrite run_eq, loop_no_benchmark, Nat.eqb_refl. cbn [negb].
  destruct (loop_written NO_BENCHMARK verbose frames init)
    as (n & Hn & Hf & _).
  destruct (Hf (loop_no_benchmark verbose frames init)) as [-> _].
  rewrite Hn, firstn_all. reflexivity.
Qed.

(** X13.  When a benchmark is asked for and no time is added up, because
    the video has no frame or because the kind is none of the three that
    time a stage, the call raises [ZeroDivisionError]: at the first frame
    when it is verbose, after the last one otherwise. *)
Theorem video_no_time_raises (b : nat) (verbose : bool)
  (frames : list frame) :
  b <> NO_BENCHMARK ->
  frames = [] \/
  (b <> MODEL_ONLY /\ b <> MODEL_WITH_PP /\ b <> MODEL_WITH_IO) ->
  run b verbose frames
  = (ZeroDivisionError,
     map out (if verbose then firstn 1 frames else frames)).
Proof.
  intros Hb H. apply Nat.eqb_neq in Hb.
  destruct H as [-> | (H1 & H2 & H3)].
  - rewrite run_eq, loop_nil. cbn [fst snd].
    rewrite start_written, start_sum_time, Hb. cbn [negb].
    now destruct verbose.
  - rewrite run_eq, (loop_sum_untimed b verbose frames init H1 H2 H3), Hb.
    change (Qeq_bool (sum_time frame init) 0) with true. cbn [negb].
    assert (E : written frame (snd (loop b verbose frames init))
                = map out (if verbose then firstn 1 frames else frames)).
    { destruct verbose.
      - destruct frames as [|f rest];
          [rewrite loop_nil; cbn [snd]; now rewrite start_written|].
        rewrite loop_cons, Hb, (step_untimed b f init H1 H2 H3).
        change (Qeq_bool (sum_time frame init) 0) with true.
        cbn [negb andb snd firstn map]. now rewrite step_written.
      - destruct (loop_written b false frames init) as (n & Hn & Hf & Hv).
        destruct (Hf (Hv eq_refl)) as [-> _].
        now rewrite Hn, firstn_all. }
    rewrite E. now destruct (fst (loop b verbose frames init)).
Qed.

(** X14.  With a benchmark kind that times a stage, the call takes two
    readings of the clock around the stage for each frame and adds up
    their differences; while that time is not 0 it returns the number of
    frames divided by it, and it has written every frame. *)
Theorem video_benchmark_fps (b : nat) (verbose : bool)
  (frames : list frame) :
  b = MODEL_ONLY \/ b = MODEL_WITH_PP \/ b = MODEL_WITH_IO ->
  MODEL_ONLY <> MODEL_WITH_PP -> MODEL_ONLY <> MODEL_WITH_IO ->
  MODEL_WITH_PP <> MODEL_WITH_IO ->
  b <> NO_BENCHMARK -> frames <> [] ->
  (forall k, (0 < k <= length frames)%nat -> ~ elapsed clock k == 0) ->
  run b verbose frames
  = (Fps (Some (Qcount (length frames) / elapsed clock (length frames))),
     map out frames).
Proof.
  intros Hkind D1 D2 D3 Hb Hne Hnz. apply Nat.eqb_neq in Hb.
  destruct (loop_timed b verbose frames init 0 Hkind D1 D2 D3)
    as [Hf Hs]; [reflexivity | reflexivity | exact Hnz |].
  destruct (loop_written b verbose frames init) as (n & Hn & Hc & _).
  destruct (Hc Hf) as [-> Hcount]. rewrite firstn_all in Hn.
  rewrite run_eq, Hf, Hb, Hs, Hn, Hcount. cbn [negb].
  rewrite Qeq_bool_false; [reflexivity|].
  apply Hnz. destruct frames as [|f rest]; [contradiction|].
  cbn [length]. lia.
Qed.

End VideoLoop.

Lemma video_frames_in_order_witness :
  snd (demo_video 2 false [10; 20]%nat) = [21; 41]%nat.
Proof.
  apply (video_frames_in_order nat nat nat nat
           (fun f => f) S (fun p => p) (fun d _ => d)
           (fun d f => (d + f)%nat) 0 1 2 3 demo_clock 2 false
           [10; 20]%nat).
  left. reflexivity.
Defined.

Lemma video_no_benchmark_witness :
  demo_video 0 true [10; 20]%nat = (Fps None, [21; 41]%nat).
Proof.
  apply (video_no_benchmark nat nat nat nat
           (fun f => f) S (fun p => p) (fun d _ => d)
           (fun d f => (d + f)%nat) 0 1 2 3 demo_clock 0 true
           [10; 20]%nat).
  reflexivity.
Defined.

Lemma video_no_time_raises_witness :
  demo_video 7 true [10; 20]%nat = (ZeroDivisionError, [21]%nat).
Proof.
  apply (video_no_time_raises nat nat nat nat
           (fun f => f) S (fun p => p) (fun d _ => d)
           (fun d f => (d + f)%nat) 0 1 2 3 demo_clock 7 true
           [10; 20]%nat).
  - discriminate.
  - right. repeat split; discriminate.
Defined.

Lemma video_benchmark_fps_witness :
  demo_video 3 true [10; 20]%nat
  = (Fps (Some (Qcount 2 / elapsed demo_clock 2)), [21; 41]%nat).
Proof.
  apply (video_benchmark_fps nat nat nat nat
           (fun f => f) S (fun p => p) (fun d _ => d)
           (fun d f => (d + f)%nat) 0 1 2 3 demo_clock 3 true
           [10; 20]%nat).
  - right. right. reflexivity.
  - discriminate.
  - discriminate.
  - discriminate.
  - discriminate.
  - discriminate.
  - intros k Hk.
    assert (E : k = 1%nat \/ k = 2%nat) by (cbn [length] in Hk; lia).
    destruct E as [-> | ->]; vm_compute; discriminate.
Defined.

(** * The dispatcher as the entry point *)

(** X15.  Whatever the layer, [run_nms_inplace] raises only for the greedy
    kind on a buffer of fewer than four columns; it keeps the shape of the
    buffer and the box attributes of every row, and a class score it leaves
    is the score it found or 0. *)
Theorem dispatcher_frame (GREEDY_NMS : string) (NMS_THRESHOLD : Q)
  (preds : tensor) (layer : yolo_layer) :
  let r := run_nms_inplace GREEDY_NMS NMS_THRESHOLD preds layer in
  (fst r = IndexError
   <-> nms_kind layer = GREEDY_NMS /\ (ncols preds < 4)%nat) /\
  ncols (snd r) = ncols preds /\
  length (rows (snd r)) = length (rows preds) /\
  bbox_attrs_of (snd r) = bbox_attrs_of preds /\
  forall i c, score (snd r) i c = score preds i c \/ score (snd r) i c = 0.
Proof.
  intro r. subst r. unfold run_nms_inplace.
  destruct (String.eqb_spec (nms_kind layer) GREEDY_NMS) as [E|E].
  - fold (suppressed preds NMS_THRESHOLD).
    split; [|split; [apply suppressed_ncols
                    |split; [apply suppressed_length
                            |split; [apply suppressed_attrs
                                    |apply suppressed_only_zeroes]]]].
    destruct (greedy_cases preds NMS_THRESHOLD) as [[L ->]|[L ->]];
      unfold YOLO_TH in L; simpl; split.
    + intros _. split; [exact E | lia].
    + reflexivity.
    + discriminate.
    + intros [_ H]. lia.
  - simpl. split; [|repeat split; now left].
    split; [discriminate | intros [H _]; contradiction].
Qed.

(** * Outside the data model *)

(** Scores below zero are no confidences.  There a zero is not the lowest
    score: the first call keeps -1 and zeroes -2, and a second call zeroes
    the -1.  The two properties of the pass that speak of its effect on the
    scores are stated for confidences. *)
Example negative_scores_two_passes :
  suppressed negative_scores (1#2)
  = mkTensor 6 [ [0; 0; 2; 2; 1; -1]; [0; 0; 2; 2; 1; 0] ] /\
  suppressed (suppressed negative_scores (1#2)) (1#2)
  = mkTensor 6 [ [0; 0; 2; 2; 1; 0]; [0; 0; 2; 2; 1; 0] ].
Proof. split; reflexivity. Qed.
